(** * Access-control core of the tower access application (app.py)

    A shallow embedding of the Wiegand decoder, the credential queue, the
    schedule check, the opening-time setting, the relay driver and the queue
    processing task, followed by the properties proved about them.

    Python integers are [Z]; Python lists are [list]; text is [string];
    a Python call that may raise is a [result]; what a function writes to
    the application log is returned beside its value as a list of
    [log_entry]. *)

From Stdlib Require Import String Ascii DecimalString.
From Stdlib Require Import ZArith QArith Bool List Lia.
Import ListNotations.
Open Scope string_scope.
Open Scope list_scope.
Open Scope Z_scope.

(* ================================================================== *)
(** * 1. Python primitives used by the code *)
(* ================================================================== *)

(** The exception classes that occur in the modelled functions. *)
Inductive exc : Set :=
| ValueError | TypeError | IndexError | OverflowError | AttributeError
| UnicodeDecodeError | JSONDecodeError | IOError | ConnectionError
| QueueFull | QueueEmpty | OperationalError | PigpioError | OtherError.

(** [issubclass e cls]: the part of Python's class hierarchy the handlers
    depend on (JSONDecodeError and UnicodeDecodeError derive from
    ValueError, ConnectionError from OSError = IOError). *)
Definition issubclass (e cls : exc) : bool :=
  match cls, e with
  | ValueError, (ValueError | JSONDecodeError | UnicodeDecodeError) => true
  | TypeError, TypeError => true
  | IndexError, IndexError => true
  | OverflowError, OverflowError => true
  | AttributeError, AttributeError => true
  | UnicodeDecodeError, UnicodeDecodeError => true
  | JSONDecodeError, JSONDecodeError => true
  | IOError, (IOError | ConnectionError) => true
  | ConnectionError, ConnectionError => true
  | QueueFull, QueueFull => true
  | QueueEmpty, QueueEmpty => true
  | OperationalError, OperationalError => true
  | PigpioError, PigpioError => true
  | OtherError, OtherError => true
  | _, _ => false
  end.

(** [caught e classes]: an [except (C1, C2, ...)] clause handles [e]. *)
Definition caught (e : exc) (classes : list exc) : bool :=
  existsb (issubclass e) classes.

Inductive result (A : Type) : Type :=
| Ok (a : A)
| Raise (e : exc).
Arguments Ok {A} a.
Arguments Raise {A} e.

Definition bind {A B} (r : result A) (k : A -> result B) : result B :=
  match r with
  | Ok a => k a
  | Raise e => Raise e
  end.

Notation "x <- r ;; k" := (bind r (fun x => k))
  (at level 61, r at next level, right associativity).

(** [l[a:b]] for non-negative [a], [b]. *)
Definition slice {A} (a b : nat) (l : list A) : list A :=
  firstn (b - a) (skipn a l).

(** [l[i]] for a non-negative [i]. *)
Definition index {A} (l : list A) (i : nat) : result A :=
  match nth_error l i with
  | Some x => Ok x
  | None => Raise IndexError
  end.

(** [sum(l)]. *)
Definition py_sum (l : list Z) : Z := fold_left Z.add l 0.

(** [str(n)] of an integer: its decimal digits, [-] first when negative. *)
Definition py_str (n : Z) : string := NilZero.string_of_int (Z.to_int n).

(** ["".join(parts)]. *)
Definition join (parts : list string) : string :=
  fold_right append EmptyString parts.

(** The digits of [int(s, 2)]: most significant first. *)
Fixpoint bin_digits (s : string) (acc : Z) : result Z :=
  match s with
  | EmptyString => Ok acc
  | String c s' =>
      if (c =? "0")%char then bin_digits s' (2 * acc)
      else if (c =? "1")%char then bin_digits s' (2 * acc + 1)
      else Raise ValueError
  end.

(** [int(s, 2)] on the texts the decoder builds.  The argument is a
    concatenation of decimal renderings of integers, so it holds only the
    characters [-0123456789]: Python's rules for blanks, underscores and the
    [0b] prefix never apply, and what is left is an optional sign followed
    by at least one binary digit. *)
Definition int_base2 (s : string) : result Z :=
  match s with
  | EmptyString => Raise ValueError
  | String c rest =>
      if (c =? "-")%char then
        match rest with
        | EmptyString => Raise ValueError
        | _ => v <- bin_digits rest 0 ;; Ok (- v)
        end
      else if (c =? "+")%char then
        match rest with
        | EmptyString => Raise ValueError
        | _ => bin_digits rest 0
        end
      else bin_digits s 0
  end.

(* ================================================================== *)
(** * 2. The application log *)
(* ================================================================== *)

Inductive level : Set := DEBUG | INFO | WARNING | ERROR | CRITICAL.

(** The messages of the modelled functions (their text carries the values
    listed as arguments). *)
Inductive message : Set :=
| MsgWiegandBits (received : nat)        (* Wiegand Error: Bits recibidos .., esperados .. *)
| MsgParityEven                          (* Wiegand: Fallo paridad PAR (bit 0) *)
| MsgParityOdd                           (* Wiegand: Fallo paridad IMPAR (bit 25) *)
| MsgParityIndex                         (* Wiegand Error: Indice paridad *)
| MsgWiegandId (fc cn id : Z)            (* Wiegand: FC=.., CN=.. -> ID=.. *)
| MsgWiegandExtract (e : exc)            (* Wiegand Error extrayendo FC/CN *)
| MsgTimeout (nbits : nat)               (* Wiegand: Timeout! Procesando .. bits *)
| MsgIdRead (cid : Z)                    (* Wiegand: ID Llavero Leido = .. *)
| MsgIdQueued (cid : Z)                  (* Wiegand: ID .. puesto en la cola *)
| MsgQueueFull                           (* Wiegand Error: La cola esta llena. Descartando ID *)
| MsgQueuePut (e : exc)                  (* Wiegand Error: No se pudo poner ID en la cola *)
| MsgHwUnavailable                       (* activate_relay: Hardware no disponible *)
| MsgRelayActivating (seconds : Z)       (* Activando rele por .. segundos *)
| MsgRelayDeactivated                    (* Rele desactivado *)
| MsgRelayError (e : exc)                (* Error activando rele *)
| MsgRelaySecondary (e : exc)            (* Error secundario asegurando rele *)
| MsgProcessing (uid : string)           (* Procesando Wiegand Queue *)
| MsgGranted (uid : string)              (* Acceso Concedido (Wiegand) *)
| MsgDeniedSchedule (uid : string)       (* Acceso Denegado: Fuera de horario *)
| MsgDeniedInactive (uid : string)       (* Acceso Denegado: Llavero inactivo *)
| MsgDeniedUnknown (uid : string)        (* Acceso Denegado: Llavero desconocido *)
| MsgDbOperational (uid : string)        (* Error Operacional BD .. Reintentando mas tarde *)
| MsgProcessError (uid : string) (e : exc). (* Error procesando UID de Wiegand Queue *)

Definition log_entry : Set := (level * message)%type.

(* ================================================================== *)
(** * 3. The Wiegand decoder: [_wiegand_process_data] *)
(* ================================================================== *)

Definition WIEGAND_EXPECTED_BITS : nat := 26.

(** The first [try] block: both parity comparisons. *)
Definition wiegand_parity (bits : list Z) : result (bool * bool) :=
  b0 <- index bits 0 ;;
  let p0_ok := (py_sum (slice 1 13 bits) mod 2 =? b0) in
  bN <- index bits 25 ;;
  let pN_ok := negb (py_sum (slice 13 25 bits) mod 2 =? bN) in
  Ok (p0_ok, pN_ok).

(** The second [try] block: facility code and card number. *)
Definition wiegand_fields (bits : list Z) : result (Z * Z) :=
  fc <- int_base2 (join (map py_str (slice 1 9 bits))) ;;
  cn <- int_base2 (join (map py_str (slice 9 25 bits))) ;;
  Ok (fc, cn).

Definition parity_warnings (p0_ok pN_ok : bool) : list log_entry :=
  (if p0_ok then [] else [(WARNING, MsgParityEven)]) ++
  (if pN_ok then [] else [(WARNING, MsgParityOdd)]).

(** [_wiegand_process_data(bits)]: the combined ID or [None], and the log
    lines written on the way. *)
Definition _wiegand_process_data (bits : list Z) : option Z * list log_entry :=
  if negb (Nat.eqb (length bits) WIEGAND_EXPECTED_BITS) then
    (None, [(WARNING, MsgWiegandBits (length bits))])
  else
    match wiegand_parity bits with
    | Raise _ => (None, [(ERROR, MsgParityIndex)])
    | Ok (p0_ok, pN_ok) =>
        let warns := parity_warnings p0_ok pN_ok in
        match wiegand_fields bits with
        | Ok (fc, cn) =>
            let combined_id := Z.lor (Z.shiftl fc 16) cn in
            (Some combined_id, warns ++ [(DEBUG, MsgWiegandId fc cn combined_id)])
        | Raise e => (None, warns ++ [(ERROR, MsgWiegandExtract e)])
        end
    end.

(* ================================================================== *)
(** * 4. The credential queue: [wiegand_queue = queue.Queue()] *)
(* ================================================================== *)

(** Python's [queue.Queue]: the capacity given at construction ([0]: none),
    the items in arrival order, and the count of unfinished tasks. *)
Record Queue : Type := mkQueue {
  maxsize : Z;
  items : list string;
  unfinished_tasks : Z
}.

Definition Queue_new (maxsize : Z) : Queue := mkQueue maxsize [] 0.

Definition qsize (q : Queue) : Z := Z.of_nat (length (items q)).
Definition empty (q : Queue) : bool := qsize q =? 0.
Definition full (q : Queue) : bool := (0 <? maxsize q) && (maxsize q <=? qsize q).

(** [q.put(item, block=False)]. *)
Definition put_nowait (q : Queue) (item : string) : result Queue :=
  if (0 <? maxsize q) && (maxsize q <=? qsize q) then Raise QueueFull
  else Ok (mkQueue (maxsize q) (items q ++ [item]) (unfinished_tasks q + 1)).

(** [q.get_nowait()]. *)
Definition get_nowait (q : Queue) : result (string * Queue) :=
  match items q with
  | [] => Raise QueueEmpty
  | x :: rest => Ok (x, mkQueue (maxsize q) rest (unfinished_tasks q))
  end.

(** [q.task_done()]. *)
Definition task_done (q : Queue) : result Queue :=
  let unfinished := unfinished_tasks q - 1 in
  if unfinished <? 0 then Raise ValueError
  else Ok (mkQueue (maxsize q) (items q) unfinished).

(** The queue of the application: built with no capacity argument. *)
Definition wiegand_queue : Queue := Queue_new 0.

(** The states [wiegand_queue] can be in: any contents, capacity as built. *)
Definition is_wiegand_queue (q : Queue) : Prop := maxsize q = maxsize wiegand_queue.

(** What [run_wiegand_reader_thread] does with a frame once the inter-pulse
    timeout has passed: decode it and, when an ID comes out, queue its text. *)
Definition reader_on_timeout (q : Queue) (bits : list Z) : Queue * list log_entry :=
  let '(cid, lg) := _wiegand_process_data bits in
  let lg := (DEBUG, MsgTimeout (length bits)) :: lg in
  match cid with
  | None => (q, lg)
  | Some c =>
      let lg := lg ++ [(INFO, MsgIdRead c)] in
      match put_nowait q (py_str c) with
      | Ok q' => (q', lg ++ [(DEBUG, MsgIdQueued c)])
      | Raise QueueFull => (q, lg ++ [(ERROR, MsgQueueFull)])
      | Raise e => (q, lg ++ [(ERROR, MsgQueuePut e)])
      end
  end.

(* ================================================================== *)
(** * 5. The schedule check: [check_schedule] *)
(* ================================================================== *)

(** [datetime.time]: Python orders two naive times as the tuples
    (hour, minute, second, microsecond). *)
Record time : Set := mkTime {
  hour : Z;
  minute : Z;
  second : Z;
  microsecond : Z
}.

Definition time_tuple (t : time) : list Z :=
  [hour t; minute t; second t; microsecond t].

(** Python's ordering of tuples of integers. *)
Fixpoint tuple_compare (a b : list Z) : comparison :=
  match a, b with
  | [], [] => Eq
  | [], _ :: _ => Lt
  | _ :: _, [] => Gt
  | x :: a', y :: b' =>
      match x ?= y with
      | Eq => tuple_compare a' b'
      | c => c
      end
  end.

(** [a <= b], [a < b] and [a >= b] on times. *)
Definition time_le (a b : time) : bool :=
  match tuple_compare (time_tuple a) (time_tuple b) with
  | Gt => false
  | _ => true
  end.

Definition time_lt (a b : time) : bool :=
  match tuple_compare (time_tuple a) (time_tuple b) with
  | Lt => true
  | _ => false
  end.

Definition time_ge (a b : time) : bool := time_le b a.

Inductive weekday : Set := Mon | Tue | Wed | Thu | Fri | Sat | Sun.

(** [strftime('%a')]: the abbreviated day name (the program never sets a
    locale, so the names are those of the C locale). *)
Definition strftime_a (d : weekday) : string :=
  match d with
  | Mon => "Mon" | Tue => "Tue" | Wed => "Wed" | Thu => "Thu"
  | Fri => "Fri" | Sat => "Sat" | Sun => "Sun"
  end.

(** [datetime.now()], as far as [check_schedule] reads it. *)
Record local_now : Set := mkNow {
  now_weekday : weekday;
  now_time : time
}.

(** [str.lower()] on the ASCII letters. *)
Definition lower_char (c : ascii) : ascii :=
  let n := nat_of_ascii c in
  if (Nat.leb 65 n && Nat.leb n 90)%bool then ascii_of_nat (n + 32) else c.

Fixpoint lower (s : string) : string :=
  match s with
  | EmptyString => EmptyString
  | String c s' => String (lower_char c) (lower s')
  end.

(** [s.split(sep)] for a one-character separator. *)
Fixpoint split (sep : ascii) (s : string) : list string :=
  match s with
  | EmptyString => [EmptyString]
  | String c s' =>
      if (c =? sep)%char then EmptyString :: split sep s'
      else
        match split sep s' with
        | [] => [String c EmptyString]
        | w :: ws => String c w :: ws
        end
  end.

(** [x in l] for a list of texts. *)
Definition str_in (x : string) (l : list string) : bool :=
  existsb (String.eqb x) l.

(** Modelled from the spec: the [Keyfob] model class (models.py) is not
    among the sources; these are the columns the modelled functions read,
    typed as the routes of app.py fill them (the AuthorizationRecord of the
    specification: UID, active flag, schedule-enabled flag, allowed days as
    comma-separated text, optional start and end time of day). *)
Record Keyfob : Set := mkKeyfob {
  id : Z;
  uid : string;
  is_active : bool;
  activation_schedule_enabled : bool;
  activation_days : option string;
  activation_start_time : option time;
  activation_end_time : option time
}.

(** [check_schedule(keyfob)] at the local date and time [now]. *)
Definition check_schedule (keyfob : Keyfob) (now : local_now) : bool :=
  if negb (activation_schedule_enabled keyfob) then true
  else
    let current_time := now_time now in
    let current_weekday := lower (strftime_a (now_weekday now)) in
    match activation_days keyfob with
    | None => false
    | Some EmptyString => false
    | Some days =>
        let allowed_days := split "," (lower days) in
        if negb (str_in current_weekday allowed_days) then false
        else
          match activation_start_time keyfob, activation_end_time keyfob with
          | Some start, Some end_ =>
              let in_range :=
                if time_le start end_
                then time_le start current_time && time_lt current_time end_
                else time_ge current_time start || time_lt current_time end_ in
              if negb in_range then false else true
          | _, _ => true
          end
    end.

(* ================================================================== *)
(** * 6. The opening time: [load_json_config], [get_opening_time] *)
(* ================================================================== *)

Definition DEFAULT_OPENING_TIME_SECONDS : Z := 5.

(** A Python float, as far as [int()] tells floats apart: a finite float is
    the rational it stands for. *)
Inductive pyfloat : Set :=
| Finite (q : Q)
| Infinity (negative : bool)
| NaN.

(** What [json.load] returns. *)
#[warnings="-register-all"]
Inductive json : Set :=
| JNull
| JBool (b : bool)
| JInt (n : Z)
| JFloat (f : pyfloat)
| JString (s : string)
| JArray (elems : list json)
| JObject (members : list (string * json)).

(** A dict with text keys, in insertion order, each key once. *)
Definition dict : Set := list (string * json).

Fixpoint dict_lookup (d : dict) (key : string) : option json :=
  match d with
  | [] => None
  | (k, v) :: d' => if String.eqb k key then Some v else dict_lookup d' key
  end.

(** [d.get(key, default)]. *)
Definition dict_get (d : dict) (key : string) (default : json) : json :=
  match dict_lookup d key with
  | Some v => v
  | None => default
  end.

(** [d.setdefault(key, value)], for its effect on [d]. *)
Definition setdefault (d : dict) (key : string) (value : json) : dict :=
  match dict_lookup d key with
  | Some _ => d
  | None => d ++ [(key, value)]
  end.

Definition is_space (c : ascii) : bool :=
  let n := nat_of_ascii c in
  (Nat.leb 9 n && Nat.leb n 13) || (Nat.leb 28 n && Nat.leb n 32).

Definition digit_value (c : ascii) : option Z :=
  let n := nat_of_ascii c in
  if (Nat.leb 48 n && Nat.leb n 57)%bool then Some (Z.of_nat (n - 48)) else None.

Fixpoint all_space (s : string) : bool :=
  match s with
  | EmptyString => true
  | String c s' => is_space c && all_space s'
  end.

Fixpoint lstrip (s : string) : string :=
  match s with
  | EmptyString => EmptyString
  | String c s' => if is_space c then lstrip s' else s
  end.

(** The digits of [int(s)]: decimal digits, one underscore allowed between
    two digits, blanks allowed after the last digit. *)
Fixpoint dec_digits (s : string) (acc : Z) (after_digit : bool) : result Z :=
  match s with
  | EmptyString => if after_digit then Ok acc else Raise ValueError
  | String c s' =>
      match digit_value c with
      | Some d => dec_digits s' (10 * acc + d) true
      | None =>
          if (c =? "_")%char then
            if after_digit then dec_digits s' acc false else Raise ValueError
          else if after_digit && is_space c && all_space s' then Ok acc
          else Raise ValueError
      end
  end.

(** [int(s)] of a text, on ASCII: blanks stripped at both ends, an optional
    sign, then the digits.  (The digit-count limit of recent interpreters is
    left out: it turns a very long numeral into a ValueError.) *)
Definition int_of_str (s : string) : result Z :=
  match lstrip s with
  | String "-" rest => v <- dec_digits rest 0 false ;; Ok (- v)
  | String "+" rest => dec_digits rest 0 false
  | s' => dec_digits s' 0 false
  end.

(** [int(x)] of a float: towards zero; no integer for an infinity or NaN. *)
Definition int_of_float (f : pyfloat) : result Z :=
  match f with
  | Finite q => Ok (Z.quot (Qnum q) (Z.pos (Qden q)))
  | Infinity _ => Raise OverflowError
  | NaN => Raise ValueError
  end.

(** [int(v)] of a value read from JSON. *)
Definition py_int (v : json) : result Z :=
  match v with
  | JNull => Raise TypeError
  | JBool b => Ok (if b then 1 else 0)
  | JInt n => Ok n
  | JFloat f => int_of_float f
  | JString s => int_of_str s
  | JArray _ => Raise TypeError
  | JObject _ => Raise TypeError
  end.

(** What opening and parsing the settings file comes to. *)
Inductive file_state : Set :=
| FileMissing                (* os.path.exists is false *)
| FileUnreadable             (* open or read raises IOError *)
| FileBadEncoding            (* the bytes are not UTF-8 *)
| FileBadJson                (* json.load raises JSONDecodeError *)
| FileJson (v : json).       (* json.load returns v *)

(** [open(filepath)] followed by [json.load(f)]. *)
Definition json_load (file : file_state) : result json :=
  match file with
  | FileMissing => Raise IOError
  | FileUnreadable => Raise IOError
  | FileBadEncoding => Raise UnicodeDecodeError
  | FileBadJson => Raise JSONDecodeError
  | FileJson v => Ok v
  end.

(** [config.setdefault(key, value)] on what [json.load] returned: only a
    dict has the method. *)
Definition config_setdefault (config : json) (key : string) (value : json) : result json :=
  match config with
  | JObject d => Ok (JObject (setdefault d key value))
  | _ => Raise AttributeError
  end.

(** [for key, value in default_config.items(): config.setdefault(key, value)]. *)
Definition apply_defaults (config : json) (default_config : dict) : result json :=
  fold_left (fun acc kv => c <- acc ;; config_setdefault c (fst kv) (snd kv))
            default_config (Ok config).

(** [load_json_config(filepath, default_config)]. *)
Definition load_json_config (file : file_state) (default_config : dict) : result json :=
  match file with
  | FileMissing => Ok (JObject default_config)
  | _ =>
      match (config <- json_load file ;; apply_defaults config default_config) with
      | Ok config => Ok config
      | Raise e =>
          if caught e [JSONDecodeError; IOError; TypeError] then Ok (JObject default_config)
          else Raise e
      end
  end.

(** [settings.get(key, default)] on what [load_json_config] returned. *)
Definition config_get (settings : json) (key : string) (default : json) : result json :=
  match settings with
  | JObject d => Ok (dict_get d key default)
  | _ => Raise AttributeError
  end.

(** [load_system_settings()]. *)
Definition load_system_settings (file : file_state) : result json :=
  load_json_config file
    [("alerts_enabled", JBool true); ("opening_time", JInt DEFAULT_OPENING_TIME_SECONDS)].

(** [get_opening_time()], reading the settings file in state [file]. *)
Definition get_opening_time (file : file_state) : result Z :=
  let body :=
    settings <- load_system_settings file ;;
    v <- config_get settings "opening_time" (JInt DEFAULT_OPENING_TIME_SECONDS) ;;
    time_val <- py_int v ;;
    Ok (Z.max 1 (Z.min 60 time_val)) in
  match body with
  | Ok v => Ok v
  | Raise e =>
      if caught e [ValueError; TypeError] then Ok DEFAULT_OPENING_TIME_SECONDS
      else Raise e
  end.

(* ================================================================== *)
(** * 7. The relay driver: [activate_relay] *)
(* ================================================================== *)

Definition RELAY_PIN : Z := 12.

(** Relay levels: LOW (0) holds the door unlocked, HIGH (1) locked. *)
Definition UNLOCKED : Z := 0.
Definition LOCKED : Z := 1.

(** How the pigpio daemon answers during one call of [activate_relay]:
    every call into the library whose outcome the function depends on. *)
Record pigpio_env : Set := mkPigpio {
  pi_raises : bool;          (* pigpio.pi() raises *)
  pi_connected : bool;       (* pi.connected, read right after pigpio.pi() *)
  write_low_raises : bool;   (* write(RELAY_PIN, 0) raises *)
  write_high_raises : bool;  (* write(RELAY_PIN, 1) after the sleep raises *)
  connected_later : bool;    (* pi.connected, read in the handler and in finally *)
  relock_raises : bool       (* write(RELAY_PIN, 1) in the handler raises *)
}.

(** What a call does that can be seen from outside, in the order of the
    source: lines logged and calls that reach the hardware.
    [Write pin level ok]: a write was issued; it took effect when [ok], and
    raised otherwise. *)
Inductive action : Set :=
| Log (entry : log_entry)
| Write (pin level : Z) (ok : bool)
| Sleep (seconds : Z)
| Stop.

(** The second component of the pair [activate_relay] returns. *)
Inductive relay_message : Set :=
| RelayNoHardware               (* Hardware no disponible. *)
| RelayActivated (seconds : Z)  (* Rele activado por ..s. *)
| RelayFailed (e : exc).        (* Error activando rele: .. *)

Record relay_outcome : Type := mkOutcome {
  returned : result (bool * relay_message);
  relay_level : Z;
  trace : list action
}.

(** The body of the [try] block: the level the relay is left at, what was
    done, and the exception that ended the block, if any.  A write that
    raises leaves the level as it was; [time.sleep] raises ValueError on a
    negative length. *)
Definition relay_try (env : pigpio_env) (activation_time level : Z)
  : Z * list action * option exc :=
  if pi_raises env then (level, [], Some PigpioError)
  else if negb (pi_connected env) then (level, [], Some ConnectionError)
  else
    let start := Log (INFO, MsgRelayActivating activation_time) in
    if write_low_raises env then
      (level, [start; Write RELAY_PIN 0 false], Some PigpioError)
    else if activation_time <? 0 then
      (UNLOCKED, [start; Write RELAY_PIN 0 true], Some ValueError)
    else if write_high_raises env then
      (UNLOCKED,
       [start; Write RELAY_PIN 0 true; Sleep activation_time; Write RELAY_PIN 1 false],
       Some PigpioError)
    else
      (LOCKED,
       [start; Write RELAY_PIN 0 true; Sleep activation_time; Write RELAY_PIN 1 true;
        Log (INFO, MsgRelayDeactivated)],
       None).

(** [pi_relay and pi_relay.connected], as the handler and [finally] read it. *)
Definition handle_connected (env : pigpio_env) : bool :=
  negb (pi_raises env) && pi_connected env && connected_later env.

(** The [except Exception] block: the failure is logged, then the locked
    level is written once more when a connected handle exists. *)
Definition relay_handler (env : pigpio_env) (e : exc) (level : Z)
  : Z * list action :=
  let failed := Log (ERROR, MsgRelayError e) in
  if handle_connected env then
    if relock_raises env then
      (level, [failed; Write RELAY_PIN 1 false; Log (ERROR, MsgRelaySecondary PigpioError)])
    else (LOCKED, [failed; Write RELAY_PIN 1 true])
  else (level, [failed]).

(** The [finally] block. *)
Definition relay_finally (env : pigpio_env) : list action :=
  if handle_connected env then [Stop] else [].

(** [duration if duration is not None else get_opening_time()]. *)
Definition activation_time (duration : option Z) (file : file_state) : result Z :=
  match duration with
  | Some d => Ok d
  | None => get_opening_time file
  end.

(** [activate_relay(duration)], with the global [HARDWARE_AVAILABLE], the
    settings file in state [file], the daemon answering as [env], and the
    relay at [level] when the call starts. *)
Definition activate_relay (HARDWARE_AVAILABLE : bool) (duration : option Z)
    (file : file_state) (env : pigpio_env) (level : Z) : relay_outcome :=
  if negb HARDWARE_AVAILABLE then
    mkOutcome (Ok (false, RelayNoHardware)) level [Log (WARNING, MsgHwUnavailable)]
  else
    match activation_time duration file with
    | Raise e => mkOutcome (Raise e) level []
    | Ok t =>
        let '(level1, done1, failure) := relay_try env t level in
        match failure with
        | None =>
            mkOutcome (Ok (true, RelayActivated t)) level1 (done1 ++ relay_finally env)
        | Some e =>
            let '(level2, done2) := relay_handler env e level1 in
            mkOutcome (Ok (false, RelayFailed e)) level2
                      (done1 ++ done2 ++ relay_finally env)
        end
    end.

(* ================================================================== *)
(** * 8. The queue task: [process_wiegand_queue_task] *)
(* ================================================================== *)

(** [Keyfob.query.filter(Keyfob.uid.ilike(uid)).first()]. *)
Inductive lookup : Set :=
| Found (keyfob : Keyfob)
| NotFound
| LookupRaises (e : exc).

(** What one run of the task sees around it. *)
Record world : Type := mkWorld {
  MODELS_IMPORTED_SUCCESSFULLY : bool;
  db : string -> lookup;
  now : local_now;
  HARDWARE_AVAILABLE : bool;
  settings_file : file_state;
  pigpio : pigpio_env
}.

(** Reasons written by [log_access_event]. *)
Inductive reason : Set :=
| ReasonGranted       (* Acceso Concedido (Wiegand) *)
| ReasonSchedule      (* Acceso Denegado (Wiegand - Fuera de horario) *)
| ReasonInactive      (* Acceso Denegado (Wiegand - Llavero inactivo) *)
| ReasonUnknown.      (* Acceso Denegado (Wiegand - Llavero desconocido) *)

(** One row of the access log. *)
Record access_event : Set := mkAccess {
  uid_attempted : string;
  keyfob_id : option Z;
  granted : bool;
  access_reason : reason
}.

(** What persists from one run of the task to the next. *)
Record state : Type := mkState {
  queue : Queue;
  relay : Z;
  access_log : list access_event;
  history : list action
}.

Definition set_queue (st : state) (q : Queue) : state :=
  mkState q (relay st) (access_log st) (history st).

Definition add_log (st : state) (lvl : level) (msg : message) : state :=
  mkState (queue st) (relay st) (access_log st) (history st ++ [Log (lvl, msg)]).

(** [log_access_event(...)]: it handles its own exceptions. *)
Definition log_access_event (st : state) (ev : access_event) : state :=
  mkState (queue st) (relay st) (access_log st ++ [ev]) (history st).

(** The decision for one dequeued UID: the lines between [get_nowait] and
    [task_done] in the loop body.  The second component is the exception
    that left them, if any. *)
Definition decide (w : world) (uid : string) (st : state) : state * option exc :=
  let st := add_log st INFO (MsgProcessing uid) in
  match db w uid with
  | LookupRaises e => (st, Some e)
  | NotFound =>
      let st := add_log st WARNING (MsgDeniedUnknown uid) in
      (log_access_event st (mkAccess uid None false ReasonUnknown), None)
  | Found keyfob =>
      if is_active keyfob then
        if check_schedule keyfob (now w) then
          let st := add_log st INFO (MsgGranted uid) in
          let st := log_access_event st (mkAccess uid (Some (id keyfob)) true ReasonGranted) in
          let o := activate_relay (HARDWARE_AVAILABLE w) None (settings_file w)
                                  (pigpio w) (relay st) in
          let st := mkState (queue st) (relay_level o) (access_log st)
                            (history st ++ trace o) in
          match returned o with
          | Ok _ => (st, None)
          | Raise e => (st, Some e)
          end
        else
          let st := add_log st WARNING (MsgDeniedSchedule uid) in
          (log_access_event st (mkAccess uid (Some (id keyfob)) false ReasonSchedule), None)
      else
        let st := add_log st WARNING (MsgDeniedInactive uid) in
        (log_access_event st (mkAccess uid (Some (id keyfob)) false ReasonInactive), None)
  end.

(** What the loop does with an exception [e] of its body: [true] when the
    loop goes on. *)
Definition on_exception (uid : string) (e : exc) (st : state) : state * bool :=
  if issubclass e QueueEmpty then (st, false)
  else if issubclass e OperationalError then
    (add_log st ERROR (MsgDbOperational uid), false)
  else
    let st := add_log st ERROR (MsgProcessError uid e) in
    match task_done (queue st) with
    | Ok q => (set_queue st q, true)
    | Raise _ => (st, true)
    end.

(** The [while] loop, [budget] being [max_per_cycle - processed]. *)
Fixpoint process_loop (w : world) (budget : nat) (st : state) : state :=
  match budget with
  | O => st
  | S budget' =>
      if empty (queue st) then st
      else
        match get_nowait (queue st) with
        | Raise _ => st
        | Ok (uid, q) =>
            let '(st1, failure) := decide w uid (set_queue st q) in
            let '(st2, failure) :=
              match failure with
              | Some e => (st1, Some e)
              | None =>
                  match task_done (queue st1) with
                  | Ok q' => (set_queue st1 q', None)
                  | Raise e => (st1, Some e)
                  end
              end in
            match failure with
            | None => process_loop w budget' st2
            | Some e =>
                let '(st3, go_on) := on_exception uid e st2 in
                if go_on then process_loop w budget' st3 else st3
            end
        end
  end.

Definition max_per_cycle : nat := 10.

(** [process_wiegand_queue_task()]: one tick of the scheduler job. *)
Definition process_wiegand_queue_task (w : world) (st : state) : state :=
  if negb (MODELS_IMPORTED_SUCCESSFULLY w) then st
  else process_loop w max_per_cycle st.

(* ================================================================== *)
(** * 8.1 Pulse capture and the reader loop:
      [_wiegand_pulse_callback], [run_wiegand_reader_thread] *)
(* ================================================================== *)

Definition WIEGAND_PIN_D0 : Z := 7.
Definition WIEGAND_PIN_D1 : Z := 8.
Definition WIEGAND_TIMEOUT_MS : Z := 50.

(** The two globals the callback and the reader thread share. *)
Record collector : Set := mkCollector {
  _wiegand_bits_collector : list Z;
  _last_pulse_tick : Z
}.

(** [_wiegand_pulse_callback(gpio, level, tick)]. *)
Definition _wiegand_pulse_callback (gpio level tick : Z) (c : collector) : collector :=
  if level =? 0 then
    if Nat.leb (WIEGAND_EXPECTED_BITS + 8) (length (_wiegand_bits_collector c)) then c
    else if gpio =? WIEGAND_PIN_D0 then
      mkCollector (_wiegand_bits_collector c ++ [0]) tick
    else if gpio =? WIEGAND_PIN_D1 then
      mkCollector (_wiegand_bits_collector c ++ [1]) tick
    else c
  else c.

(** One edge reported by pigpio: the arguments of the callback. *)
Record edge : Set := mkEdge {
  edge_gpio : Z;
  edge_level : Z;
  edge_tick : Z
}.

(** The callback run on a sequence of edges, in order. *)
Definition capture (edges : list edge) (c : collector) : collector :=
  fold_left (fun c e => _wiegand_pulse_callback (edge_gpio e) (edge_level e) (edge_tick e) c)
            edges c.

(** [pigpio.tickDiff(t1, t2)]: ticks are microseconds in 32 bits and wrap
    around. *)
Definition tickDiff (t1 t2 : Z) : Z :=
  let tDiff := t2 - t1 in
  if tDiff <? 0 then tDiff + Z.shiftl 1 32 else tDiff.

(** One pass of the inner [while pi.connected] loop of
    [run_wiegand_reader_thread], with [pi.get_current_tick()] giving
    [tick_now]: the collector and queue it leaves, and the lines logged. *)
Definition reader_poll (tick_now : Z) (c : collector) (q : Queue)
  : collector * Queue * list log_entry :=
  if Nat.ltb 0 (length (_wiegand_bits_collector c)) then
    let time_since_last_pulse_us := tickDiff (_last_pulse_tick c) tick_now in
    if time_since_last_pulse_us >? WIEGAND_TIMEOUT_MS * 1000 then
      let bits := _wiegand_bits_collector c in
      let '(q', lg) := reader_on_timeout q bits in
      (mkCollector [] tick_now, q', lg)
    else (c, q, [])
  else (c, q, []).

(* ================================================================== *)
(** * 8.2 Setting the opening time:
      [save_json_config], [set_opening_time], [api_set_opening_time] *)
(* ================================================================== *)

(** [d[key] = value] on a dict. *)
Fixpoint dict_set (d : dict) (key : string) (value : json) : dict :=
  match d with
  | [] => [(key, value)]
  | (k, v) :: d' =>
      if String.eqb k key then (k, value) :: d'
      else (k, v) :: dict_set d' key value
  end.

(** [settings[key] = value] on what [load_json_config] returned. *)
Definition config_setitem (settings : json) (key : string) (value : json) : result json :=
  match settings with
  | JObject d => Ok (JObject (dict_set d key value))
  | _ => Raise TypeError
  end.

(** How writing the settings file goes: it succeeds, or [open] or the write
    raises IOError and the file is left in some state. *)
Inductive write_outcome : Set :=
| WriteOk
| WriteFails (left_behind : file_state).

(** [save_json_config(filepath, config)]: the value returned and the file
    afterwards.  What [json.dump] writes, [json.load] reads back. *)
Definition save_json_config (w : write_outcome) (config : json) : bool * file_state :=
  match w with
  | WriteOk => (true, FileJson config)
  | WriteFails left_behind => (false, left_behind)
  end.

(** [save_system_settings(config)] (its [flash] on failure shows nothing
    here). *)
Definition save_system_settings (w : write_outcome) (config : json) : bool * file_state :=
  save_json_config w config.

(** The messages [set_opening_time] returns. *)
Inductive set_message : Set :=
| SetOutOfRange          (* Tiempo fuera de rango (1-60s). *)
| SetDone (seconds : Z)  (* Tiempo apertura configurado a ..s. *)
| SetSaveFailed          (* Error al guardar config tiempo apertura. *)
| SetInternalError.      (* Error interno config tiempo apertura. *)

(** [set_opening_time(new_time_seconds)]: the pair returned and the
    settings file afterwards. *)
Definition set_opening_time (new_time_seconds : Z) (file : file_state)
    (w : write_outcome) : (bool * set_message) * file_state :=
  if negb ((1 <=? new_time_seconds) && (new_time_seconds <=? 60)) then
    ((false, SetOutOfRange), file)
  else
    match (settings <- load_system_settings file ;;
           config_setitem settings "opening_time" (JInt new_time_seconds)) with
    | Raise _ => ((false, SetInternalError), file)
    | Ok settings =>
        let '(saved, file') := save_system_settings w settings in
        if saved then ((true, SetDone new_time_seconds), file')
        else ((false, SetSaveFailed), file')
    end.

(** The data of a request: a JSON body, or form fields. *)
Inductive request_data : Set :=
| JsonBody (body : json)
| FormData (fields : list (string * string)).

Fixpoint form_lookup (fields : list (string * string)) (key : string) : option string :=
  match fields with
  | [] => None
  | (k, v) :: fields' => if String.eqb k key then Some v else form_lookup fields' key
  end.

(** [data.get('opening_time')]: [JNull] stands for Python's [None]. *)
Definition request_get (data : request_data) (key : string) : result json :=
  match data with
  | JsonBody (JObject d) => Ok (dict_get d key JNull)
  | JsonBody _ => Raise AttributeError
  | FormData fields =>
      match form_lookup fields key with
      | Some v => Ok (JString v)
      | None => Ok JNull
      end
  end.

(** The validation in [api_set_opening_time]: the first [try] block. *)
Definition requested_time (time_str : json) : result Z :=
  match time_str with
  | JNull => Raise ValueError
  | _ =>
      new_time <- py_int time_str ;;
      if negb ((1 <=? new_time) && (new_time <=? 60)) then Raise ValueError
      else Ok new_time
  end.

(** [api_set_opening_time()]: the HTTP status of the response, or the
    exception that leaves the view, and the settings file afterwards. *)
Definition api_set_opening_time (data : request_data) (file : file_state)
    (w : write_outcome) : result Z * file_state :=
  match request_get data "opening_time" with
  | Raise e => (Raise e, file)
  | Ok time_str =>
      match requested_time time_str with
      | Raise e =>
          if caught e [ValueError; TypeError] then (Ok 400, file)
          else (Raise e, file)
      | Ok new_time =>
          let '((success, _), file') := set_opening_time new_time file w in
          if success then (Ok 200, file') else (Ok 500, file')
      end
  end.

(* ================================================================== *)
(** * 8.3 Locking and unlocking: [lock_door], [unlock_door_permanently] *)
(* ================================================================== *)

(** The second component of the pair the two functions return. *)
Inductive door_message : Set :=
| DoorNoHardware           (* Hardware no disponible. *)
| DoorLocked               (* Puerta bloqueada. *)
| DoorUnlocked             (* Puerta desbloqueada permanentemente. *)
| DoorLockFailed (e : exc)     (* Error bloqueando puerta: .. *)
| DoorUnlockFailed (e : exc).  (* Error desbloqueando permanentemente: .. *)

(** The lines the two functions log. *)
Inductive door_line : Set :=
| LineLocked               (* Puerta bloqueada (Rele .. -> ALTO). *)
| LineUnlockedPermanently  (* Puerta DESBLOQUEADA PERMANENTEMENTE (Rele .. -> BAJO). *)
| LineLockError (e : exc)      (* Error bloqueando puerta *)
| LineUnlockError (e : exc).   (* Error desbloqueando permanentemente *)

(** What a call does, in the order of the source: a line logged, or a call
    that reaches the hardware. *)
Inductive door_step : Set :=
| Said (lvl : level) (line : door_line)
| Did (a : action).

Record door_outcome : Set := mkDoor {
  door_returned : bool * door_message;
  door_level : Z;
  door_steps : list door_step
}.

(** The one write both functions make: [pigpio.pi()], the connection check
    and [write(RELAY_PIN, target)], with the exception that ended the [try]
    block, if any.  [write_raises] tells whether the write raises. *)
Definition door_write (env : pigpio_env) (target : Z) (write_raises : bool)
    (level : Z) : Z * list door_step * option exc :=
  if pi_raises env then (level, [], Some PigpioError)
  else if negb (pi_connected env) then (level, [], Some ConnectionError)
  else if write_raises then
    (level, [Did (Write RELAY_PIN target false)], Some PigpioError)
  else (target, [Did (Write RELAY_PIN target true)], None).

(** The [finally] block of both functions. *)
Definition door_finally (env : pigpio_env) : list door_step :=
  if handle_connected env then [Did Stop] else [].

(** [lock_door()]. *)
Definition lock_door (HARDWARE_AVAILABLE : bool) (env : pigpio_env) (level : Z)
  : door_outcome :=
  if negb HARDWARE_AVAILABLE then mkDoor (false, DoorNoHardware) level []
  else
    let '(level1, steps, failure) := door_write env 1 (write_high_raises env) level in
    match failure with
    | None =>
        mkDoor (true, DoorLocked) level1
               (steps ++ [Said INFO LineLocked] ++ door_finally env)
    | Some e =>
        mkDoor (false, DoorLockFailed e) level1
               (steps ++ [Said ERROR (LineLockError e)] ++ door_finally env)
    end.

(** [unlock_door_permanently()]. *)
Definition unlock_door_permanently (HARDWARE_AVAILABLE : bool) (env : pigpio_env)
    (level : Z) : door_outcome :=
  if negb HARDWARE_AVAILABLE then mkDoor (false, DoorNoHardware) level []
  else
    let '(level1, steps, failure) := door_write env 0 (write_low_raises env) level in
    match failure with
    | None =>
        mkDoor (true, DoorUnlocked) level1
               (steps ++ [Said WARNING LineUnlockedPermanently] ++ door_finally env)
    | Some e =>
        mkDoor (false, DoorUnlockFailed e) level1
               (steps ++ [Said ERROR (LineUnlockError e)] ++ door_finally env)
    end.

(* ================================================================== *)
(** * 8.4 GPIO set-up and clean-up: [setup_gpio], [cleanup_gpio] *)
(* ================================================================== *)

Inductive pin_mode : Set := INPUT | OUTPUT.
Inductive pull : Set := PUD_OFF | PUD_UP.

(** The calls the two functions make on their daemon handle. *)
Inductive gpio_call : Set :=
| SetMode (pin : Z) (mode : pin_mode)        (* set_mode(pin, mode) *)
| WriteLevel (pin level : Z)                 (* write(pin, level) *)
| SetPull (pin : Z) (pud : pull)             (* set_pull_up_down(pin, pud) *)
| StopHandle.                                (* stop() *)

(** How the daemon answers during one call of [setup_gpio] or
    [cleanup_gpio]. *)
Record gpio_env : Set := mkGpio {
  connect_raises : bool;        (* pigpio.pi() raises *)
  connected : bool;             (* .connected, read right after pigpio.pi() *)
  call_raises : nat -> bool;    (* the configuration call at this position raises *)
  connected_finally : bool      (* .connected, read in finally *)
}.

(** The calls of a [try] block, one after the other from position [i],
    until one raises: the calls that returned, and the exception. *)
Fixpoint run_calls (raises : nat -> bool) (i : nat) (calls : list gpio_call)
  : list gpio_call * option exc :=
  match calls with
  | [] => ([], None)
  | c :: rest =>
      if raises i then ([], Some PigpioError)
      else
        let '(done, failure) := run_calls raises (S i) rest in
        (c :: done, failure)
  end.

(** The configuration [setup_gpio] applies, in the order of the source. *)
Definition setup_sequence : list gpio_call :=
  [SetMode RELAY_PIN OUTPUT; WriteLevel RELAY_PIN 1;
   SetMode WIEGAND_PIN_D0 INPUT; SetMode WIEGAND_PIN_D1 INPUT;
   SetPull WIEGAND_PIN_D0 PUD_UP; SetPull WIEGAND_PIN_D1 PUD_UP].

(** The [finally] block of both functions, for a handle that was built. *)
Definition gpio_finally (env : gpio_env) : list gpio_call :=
  if connected_finally env then [StopHandle] else [].

(** [setup_gpio()]: the value returned, the global [HARDWARE_AVAILABLE] it
    leaves, and the calls that returned.  (The function reports on standard
    output only.) *)
Definition setup_gpio (PIGPIO_AVAILABLE : bool) (env : gpio_env)
  : bool * bool * list gpio_call :=
  if negb PIGPIO_AVAILABLE then (false, false, [])
  else if connect_raises env then (false, false, [])
  else if negb (connected env) then (false, false, gpio_finally env)
  else
    let '(done, failure) := run_calls (call_raises env) 0 setup_sequence in
    match failure with
    | None => (true, true, done ++ gpio_finally env)
    | Some _ => (false, false, done ++ gpio_finally env)
    end.

(** The calls of [cleanup_gpio], in the order of the source. *)
Definition cleanup_sequence : list gpio_call :=
  [SetMode RELAY_PIN OUTPUT; WriteLevel RELAY_PIN 1; SetMode RELAY_PIN INPUT;
   SetPull WIEGAND_PIN_D0 PUD_OFF; SetPull WIEGAND_PIN_D1 PUD_OFF;
   SetMode WIEGAND_PIN_D0 INPUT; SetMode WIEGAND_PIN_D1 INPUT].

(** [cleanup_gpio()]: the calls that returned (it returns nothing and
    handles its exceptions). *)
Definition cleanup_gpio (PIGPIO_AVAILABLE HARDWARE_AVAILABLE : bool)
    (env : gpio_env) : list gpio_call :=
  if negb PIGPIO_AVAILABLE || negb HARDWARE_AVAILABLE then []
  else if connect_raises env then []
  else if negb (connected env) then gpio_finally env
  else fst (run_calls (call_raises env) 0 cleanup_sequence) ++ gpio_finally env.

(* ================================================================== *)
(** * 8.5 The day list of a keyfob: [add_keyfob], [edit_keyfob] *)
(* ================================================================== *)

(** [sep.join(parts)]. *)
Fixpoint join_sep (sep : string) (parts : list string) : string :=
  match parts with
  | [] => EmptyString
  | [x] => x
  | x :: rest => (x ++ sep ++ join_sep sep rest)%string
  end.

(** The [activation_days] column as [add_keyfob] and [edit_keyfob] fill it
    when the schedule is enabled, from the day names the form sends:
    [days = ",".join(days_list) if days_list else None]. *)
Definition stored_days (days_list : list string) : option string :=
  match days_list with
  | [] => None
  | _ => Some (join_sep "," days_list)
  end.

(* ================================================================== *)
(** * 9. Notions the properties are stated with *)
(* ================================================================== *)

Definition is_bit (b : Z) : Prop := b = 0 \/ b = 1.

(** A frame of the protocol: 26 bits, each 0 or 1. *)
Definition is_frame (bits : list Z) : Prop :=
  length bits = 26%nat /\ Forall is_bit bits.

(** A bit sequence read as an unsigned big-endian number. *)
Definition be_value (l : list Z) : Z := fold_left (fun acc b => 2 * acc + b) l 0.

(** The two fields of a frame, recomputed from its bit ranges. *)
Definition facility (bits : list Z) : Z := be_value (slice 1 9 bits).
Definition card_number (bits : list Z) : Z := be_value (slice 9 25 bits).

(** The two parity checks of the 26-bit format. *)
Definition even_parity_ok (bits : list Z) : Prop :=
  nth_error bits 0 = Some (py_sum (slice 1 13 bits) mod 2).
Definition odd_parity_ok (bits : list Z) : Prop :=
  nth_error bits 25 = Some (1 - py_sum (slice 13 25 bits) mod 2).

(** The frame with both parity bits set right. *)
Definition with_parity (bits : list Z) : list Z :=
  (py_sum (slice 1 13 bits) mod 2) :: slice 1 25 bits
    ++ [1 - py_sum (slice 13 25 bits) mod 2].

(** The inverse of the extraction rule: [n] bits of [v], most significant
    first. *)
Fixpoint to_bits (n : nat) (v : Z) : list Z :=
  match n with
  | O => []
  | S n' => to_bits n' (v / 2) ++ [v mod 2]
  end.

(** A frame that carries [fc] in bits 1..8 and [cn] in bits 9..24, with
    [p0] and [pN] in the two parity positions. *)
Definition encode_frame (p0 fc cn pN : Z) : list Z :=
  p0 :: to_bits 8 fc ++ to_bits 16 cn ++ [pN].

(** A time of day as [datetime.time] accepts it. *)
Definition valid_time (t : time) : Prop :=
  0 <= hour t < 24 /\ 0 <= minute t < 60 /\ 0 <= second t < 60
  /\ 0 <= microsecond t < 1000000.

(** Microseconds since midnight. *)
Definition since_midnight (t : time) : Z :=
  ((hour t * 60 + minute t) * 60 + second t) * 1000000 + microsecond t.

(** The allowed-day set of a record: the names in its comma-separated
    day text, in lower case. *)
Definition allowed_days (keyfob : Keyfob) : list string :=
  match activation_days keyfob with
  | None => []
  | Some days => split "," (lower days)
  end.

(** The name the current weekday is looked up by. *)
Definition weekday_name (d : weekday) : string :=
  match d with
  | Mon => "mon" | Tue => "tue" | Wed => "wed" | Thu => "thu"
  | Fri => "fri" | Sat => "sat" | Sun => "sun"
  end.

(** The frame given as an example in the specification. *)
Definition example_frame : list Z :=
  [1;0;1;1;0;0;0;0; 0;0;0;0;0;0;0;1; 0;0;0;0;0;0;0;0;0;1].

(** The example frame with its first bit flipped: the even-parity check
    fails, and the ID is still returned. *)
Definition bad_parity_frame : list Z :=
  [0;0;1;1;0;0;0;0; 0;0;0;0;0;0;0;1; 0;0;0;0;0;0;0;0;0;1].

(** The claim that a queue is bounded: at some size it is at capacity, and
    there every further enqueue is rejected. *)
Definition queue_bounded (q0 : Queue) : Prop :=
  exists capacity : nat, forall q item,
    maxsize q = maxsize q0 -> length (items q) = capacity ->
    put_nowait q item = Raise QueueFull.

(** The relay was held unlocked for [seconds]. *)
Definition held_for (o : relay_outcome) (seconds : Z) : Prop :=
  In (Sleep seconds) (trace o).

(** The daemon answers every call. *)
Definition daemon_up : pigpio_env :=
  mkPigpio false true false false true false.

(** The daemon is lost while the relay is held: the handle still reports
    connected, and every write after the hold raises. *)
Definition daemon_lost_during_hold : pigpio_env :=
  mkPigpio false true false true true true.

(** Settings files used as examples. *)
Definition settings_infinite : file_state :=
  FileJson (JObject [("opening_time", JFloat (Infinity false))]).
Definition settings_500 : file_state :=
  FileJson (JObject [("opening_time", JInt 500)]).

(** The UIDs a history shows as taken up, in order: one [MsgProcessing]
    line each. *)
Fixpoint processed_uids (h : list action) : list string :=
  match h with
  | [] => []
  | Log (_, MsgProcessing u) :: h' => u :: processed_uids h'
  | _ :: h' => processed_uids h'
  end.

(** A database that is transiently unavailable, and one that holds no
    keyfob. *)
Definition db_down : string -> lookup := fun _ => LookupRaises OperationalError.
Definition db_empty : string -> lookup := fun _ => NotFound.

Definition noon_monday : local_now := mkNow Mon (mkTime 12 0 0 0).

Definition world_with (database : string -> lookup) : world :=
  mkWorld true database noon_monday true FileMissing daemon_up.

(** Two credentials queued by the reader thread, none taken up yet. *)
Definition two_queued : state :=
  mkState (mkQueue 0 ["111"; "222"] 2) LOCKED [] [].

(** The schedule of the specification's example: Mondays, 22:00 to 06:00. *)
Definition night_keyfob : Keyfob :=
  mkKeyfob 1 "6291968" true true (Some "mon")
           (Some (mkTime 22 0 0 0)) (Some (mkTime 6 0 0 0)).

(** Each element of an explicit list is 0 or 1. *)
Ltac all_bits :=
  repeat first
    [ apply Forall_nil
    | apply Forall_cons; [first [left; reflexivity | right; reflexivity] |] ].

(** A list of 26 elements, spelled out. *)
Ltac spell_out_frame bits Hlen :=
  do 26 (destruct bits as [| ? bits]; [discriminate Hlen |]);
  destruct bits; [| discriminate Hlen].

(** The bit an edge stands for, if it is a falling edge on a data line. *)
Definition edge_bit (e : edge) : option Z :=
  if edge_level e =? 0 then
    if edge_gpio e =? WIEGAND_PIN_D0 then Some 0
    else if edge_gpio e =? WIEGAND_PIN_D1 then Some 1
    else None
  else None.

(** The bits a sequence of edges stands for, in order. *)
Fixpoint edge_bits (edges : list edge) : list Z :=
  match edges with
  | [] => []
  | e :: edges' =>
      match edge_bit e with
      | Some b => b :: edge_bits edges'
      | None => edge_bits edges'
      end
  end.

(** The falling edge a reader sends for bit [b] at time [tick]: on line D0
    for 0, on D1 otherwise. *)
Definition pulse (b tick : Z) : edge :=
  mkEdge (if b =? 0 then WIEGAND_PIN_D0 else WIEGAND_PIN_D1) 0 tick.

(** The pulses of a bit sequence, sent at the given times. *)
Definition pulses (bits ticks : list Z) : list edge :=
  map (fun bt => pulse (fst bt) (snd bt)) (combine bits ticks).

(** The two states of the settings file in which [get_opening_time]
    raises. *)
Definition opening_time_infinite (file : file_state) : Prop :=
  exists d negative, file = FileJson (JObject d) /\
    dict_lookup d "opening_time" = Some (JFloat (Infinity negative)).

Definition not_an_object (file : file_state) : Prop :=
  exists v, file = FileJson v /\ forall d, v <> JObject d.

(** What the task decides for a UID: access is granted when the lookup
    finds a keyfob that is active and within its schedule. *)
Definition grants (w : world) (uid : string) : bool :=
  match db w uid with
  | Found keyfob => is_active keyfob && check_schedule keyfob (now w)
  | _ => false
  end.

(** The lookup of a UID answers: it finds a keyfob or none. *)
Definition lookup_answers (w : world) (uid : string) : Prop :=
  forall e, db w uid <> LookupRaises e.

(** An action that only writes to the application log. *)
Definition is_log (a : action) : Prop :=
  match a with
  | Log _ => True
  | _ => False
  end.

(** The daemon answers every call of a momentary open. *)
Definition daemon_healthy (env : pigpio_env) : Prop :=
  pi_raises env = false /\ pi_connected env = true /\
  write_low_raises env = false /\ write_high_raises env = false.

(** A keyfob without a schedule, and a database that holds it under every
    UID. *)
Definition open_keyfob : Keyfob := mkKeyfob 1 "111" true false None None None.
Definition db_open : string -> lookup := fun _ => Found open_keyfob.

(** [c in s] for a character. *)
Fixpoint contains (c : ascii) (s : string) : bool :=
  match s with
  | EmptyString => false
  | String c' s' => (c' =? c)%char || contains c s'
  end.

(** The same record with another time window. *)
Definition with_window (keyfob : Keyfob) (start end_ : option time) : Keyfob :=
  mkKeyfob (id keyfob) (uid keyfob) (is_active keyfob)
           (activation_schedule_enabled keyfob) (activation_days keyfob)
           start end_.

Definition eight : time := mkTime 8 0 0 0.
Definition eighteen : time := mkTime 18 0 0 0.

(** A daemon that refuses the connection. *)
Definition gpio_down : gpio_env := mkGpio false false (fun _ => false) false.

(* ================================================================== *)
(** * 10. Properties of the decoder *)
(* ================================================================== *)

Section Decoder.

Lemma py_str_bit (b : Z) :
  is_bit b -> py_str b = "0" \/ py_str b = "1".
Proof. intros [-> | ->]; [left | right]; reflexivity. Qed.

Lemma bin_digits_join (l : list Z) :
  Forall is_bit l ->
  forall acc, bin_digits (join (map py_str l)) acc
              = Ok (fold_left (fun a b => 2 * a + b) l acc).
Proof.
  induction 1 as [| b l Hb _ IH]; intros acc; [reflexivity |].
  destruct Hb as [-> | ->]; cbn [map join fold_right fold_left];
    change (py_str 0) with "0"; change (py_str 1) with "1";
    cbn [append bin_digits Ascii.eqb Bool.eqb];
    fold (join (map py_str l)); rewrite IH; do 2 f_equal; lia.
Qed.

Lemma int_base2_join (l : list Z) :
  Forall is_bit l -> l <> [] ->
  int_base2 (join (map py_str l)) = Ok (be_value l).
Proof.
  intros Hl Hne. unfold be_value. rewrite <- (bin_digits_join l Hl 0).
  destruct l as [| b l]; [contradiction |].
  inversion Hl as [| ? ? [-> | ->] _]; reflexivity.
Qed.

Lemma fold_bits_bounds (l : list Z) :
  Forall is_bit l ->
  forall acc, 0 <= acc ->
    acc * 2 ^ Z.of_nat (length l) <= fold_left (fun a b => 2 * a + b) l acc
      < (acc + 1) * 2 ^ Z.of_nat (length l).
Proof.
  induction 1 as [| b l Hb _ IH]; intros acc Hacc.
  - cbn. lia.
  - cbn [fold_left length]. rewrite Nat2Z.inj_succ, Z.pow_succ_r by lia.
    assert (Hacc' : 0 <= 2 * acc + b) by (destruct Hb; lia).
    specialize (IH _ Hacc').
    assert (0 < 2 ^ Z.of_nat (length l)) by (apply Z.pow_pos_nonneg; lia).
    destruct Hb as [-> | ->]; nia.
Qed.

Lemma be_value_bounds (l : list Z) :
  Forall is_bit l -> 0 <= be_value l < 2 ^ Z.of_nat (length l).
Proof.
  intros Hl. pose proof (fold_bits_bounds l Hl 0 ltac:(lia)) as H.
  unfold be_value. lia.
Qed.

Lemma Forall_firstn_keeps {A} (P : A -> Prop) (n : nat) (l : list A) :
  Forall P l -> Forall P (firstn n l).
Proof.
  intros H. revert n. induction H; intros [| n]; cbn; auto.
Qed.

Lemma Forall_skipn_keeps {A} (P : A -> Prop) (n : nat) (l : list A) :
  Forall P l -> Forall P (skipn n l).
Proof.
  intros H. revert n. induction H; intros [| n]; cbn; auto.
Qed.

Lemma Forall_slice {A} (P : A -> Prop) (a b : nat) (l : list A) :
  Forall P l -> Forall P (slice a b l).
Proof.
  intros H. unfold slice. now apply Forall_firstn_keeps, Forall_skipn_keeps.
Qed.

Lemma length_slice {A} (a b : nat) (l : list A) :
  (b <= length l)%nat -> length (slice a b l) = (b - a)%nat.
Proof.
  intros H. unfold slice. rewrite length_firstn, length_skipn. lia.
Qed.

Lemma mod2_is_bit (x : Z) : is_bit (x mod 2).
Proof. unfold is_bit. pose proof (Z.mod_pos_bound x 2); lia. Qed.

Lemma nth_error_bit (bits : list Z) (i : nat) (b : Z) :
  Forall is_bit bits -> nth_error bits i = Some b -> is_bit b.
Proof.
  intros H E. rewrite Forall_forall in H. apply H.
  eapply nth_error_In; eauto.
Qed.

(** The decoder on a frame: the ID, the exact log, and what the two
    parity flags stand for. *)
Lemma decode_frame (bits : list Z) :
  is_frame bits ->
  exists p0_ok pN_ok,
    (p0_ok = true <-> even_parity_ok bits) /\
    (pN_ok = true <-> odd_parity_ok bits) /\
    _wiegand_process_data bits =
      (Some (Z.lor (Z.shiftl (facility bits) 16) (card_number bits)),
       parity_warnings p0_ok pN_ok ++
       [(DEBUG, MsgWiegandId (facility bits) (card_number bits)
                  (Z.lor (Z.shiftl (facility bits) 16) (card_number bits)))]).
Proof.
  intros [Hlen Hbits].
  assert (Hfc : int_base2 (join (map py_str (slice 1 9 bits))) = Ok (facility bits)).
  { apply int_base2_join; [now apply Forall_slice |].
    intros E. apply (f_equal (@length Z)) in E.
    rewrite length_slice in E by lia. discriminate. }
  assert (Hcn : int_base2 (join (map py_str (slice 9 25 bits))) = Ok (card_number bits)).
  { apply int_base2_join; [now apply Forall_slice |].
    intros E. apply (f_equal (@length Z)) in E.
    rewrite length_slice in E by lia. discriminate. }
  destruct (nth_error bits 0) as [b0 |] eqn:E0;
    [| apply nth_error_None in E0; lia].
  destruct (nth_error bits 25) as [bN |] eqn:EN;
    [| apply nth_error_None in EN; lia].
  exists (py_sum (slice 1 13 bits) mod 2 =? b0),
         (negb (py_sum (slice 13 25 bits) mod 2 =? bN)).
  split; [| split].
  - unfold even_parity_ok. rewrite E0, Z.eqb_eq.
    split; [intros <- | intros [= <-]]; reflexivity.
  - unfold odd_parity_ok. rewrite EN, negb_true_iff, Z.eqb_neq.
    pose proof (nth_error_bit _ _ _ Hbits EN) as HbN.
    pose proof (mod2_is_bit (py_sum (slice 13 25 bits))) as Hm.
    unfold is_bit in *.
    split; [intros Hne; f_equal; lia |].
    intros H.
    assert (bN = 1 - py_sum (slice 13 25 bits) mod 2) by congruence. lia.
  - unfold _wiegand_process_data, WIEGAND_EXPECTED_BITS.
    rewrite Hlen. cbn [Nat.eqb negb].
    unfold wiegand_parity, index. rewrite E0, EN. cbn [bind].
    unfold wiegand_fields. rewrite Hfc, Hcn. reflexivity.
Qed.

Lemma fields_in_range (bits : list Z) :
  is_frame bits ->
  0 <= facility bits <= 255 /\ 0 <= card_number bits <= 65535.
Proof.
  intros [Hlen Hbits]. unfold facility, card_number.
  pose proof (be_value_bounds _ (Forall_slice is_bit 1 9 bits Hbits)) as H1.
  pose proof (be_value_bounds _ (Forall_slice is_bit 9 25 bits Hbits)) as H2.
  rewrite length_slice in H1, H2 by lia.
  change (2 ^ Z.of_nat (9 - 1)) with 256 in H1.
  change (2 ^ Z.of_nat (25 - 9)) with 65536 in H2. lia.
Qed.

Lemma in_parity_warnings (p0_ok pN_ok : bool) (tail : message) :
  let lg := parity_warnings p0_ok pN_ok ++ [(DEBUG, tail)] in
  (In (WARNING, MsgParityEven) lg <-> p0_ok = false) /\
  (In (WARNING, MsgParityOdd) lg <-> pN_ok = false) /\
  (forall e, In e lg -> fst e = WARNING \/ fst e = DEBUG).
Proof.
  destruct p0_ok, pN_ok; cbn;
    intuition (try congruence); subst; cbn; auto.
Qed.

Lemma is_frame_with_parity (bits : list Z) :
  is_frame bits -> is_frame (with_parity bits).
Proof.
  intros [Hlen Hbits]. unfold with_parity. split.
  - cbn [length]. rewrite length_app, length_slice by lia. reflexivity.
  - constructor; [apply mod2_is_bit |].
    apply Forall_app. split; [now apply Forall_slice |].
    constructor; [| constructor].
    pose proof (mod2_is_bit (py_sum (slice 13 25 bits))) as H.
    unfold is_bit in *. lia.
Qed.

Lemma with_parity_keeps_fields (bits : list Z) :
  length bits = 26%nat ->
  facility (with_parity bits) = facility bits /\
  card_number (with_parity bits) = card_number bits /\
  even_parity_ok (with_parity bits) /\ odd_parity_ok (with_parity bits).
Proof.
  intros Hlen. spell_out_frame bits Hlen. repeat split.
Qed.

Lemma be_value_snoc (l : list Z) (b : Z) :
  be_value (l ++ [b]) = 2 * be_value l + b.
Proof. unfold be_value. rewrite fold_left_app. reflexivity. Qed.

Lemma length_to_bits (n : nat) (v : Z) : length (to_bits n v) = n.
Proof.
  revert v. induction n as [| n IH]; intros v; cbn [to_bits]; [reflexivity |].
  rewrite length_app, IH. cbn. lia.
Qed.

Lemma to_bits_are_bits (n : nat) (v : Z) : Forall is_bit (to_bits n v).
Proof.
  revert v. induction n as [| n IH]; intros v; cbn [to_bits]; [constructor |].
  apply Forall_app. split; [apply IH |].
  constructor; [apply mod2_is_bit | constructor].
Qed.

Lemma be_value_to_bits (n : nat) (v : Z) :
  be_value (to_bits n v) = v mod 2 ^ Z.of_nat n.
Proof.
  revert v. induction n as [| n IH]; intros v.
  - cbn. now rewrite Z.mod_1_r.
  - cbn [to_bits]. rewrite be_value_snoc, IH.
    rewrite Nat2Z.inj_succ, Z.pow_succ_r by lia.
    rewrite Z.rem_mul_r by (try apply Z.pow_pos_nonneg; lia). lia.
Qed.

Lemma firstn_app_exact {A} (n : nat) (l1 l2 : list A) :
  length l1 = n -> firstn n (l1 ++ l2) = l1.
Proof.
  intros <-. rewrite firstn_app, firstn_all, Nat.sub_diag. cbn.
  apply app_nil_r.
Qed.

Lemma skipn_app_exact {A} (n : nat) (l1 l2 : list A) :
  length l1 = n -> skipn n (l1 ++ l2) = l2.
Proof.
  intros <-. rewrite skipn_app, skipn_all, Nat.sub_diag. reflexivity.
Qed.

Lemma encode_frame_fields (p0 fc cn pN : Z) :
  0 <= fc <= 255 -> 0 <= cn <= 65535 ->
  facility (encode_frame p0 fc cn pN) = fc /\
  card_number (encode_frame p0 fc cn pN) = cn.
Proof.
  intros Hfc Hcn. unfold facility, card_number, encode_frame, slice. split.
  - change (skipn 1 (p0 :: ?l)) with l. cbn [Nat.sub].
    rewrite firstn_app_exact by apply length_to_bits.
    rewrite be_value_to_bits. apply Z.mod_small.
    change (2 ^ Z.of_nat 8) with 256. lia.
  - change (skipn 9 (p0 :: ?l)) with (skipn 8 l).
    rewrite skipn_app_exact by apply length_to_bits.
    change (25 - 9)%nat with 16%nat.
    rewrite firstn_app_exact by apply length_to_bits.
    rewrite be_value_to_bits. apply Z.mod_small.
    change (2 ^ Z.of_nat 16) with 65536. lia.
Qed.

Lemma is_frame_encode (p0 fc cn pN : Z) :
  is_bit p0 -> is_bit pN -> is_frame (encode_frame p0 fc cn pN).
Proof.
  intros H0 HN. unfold encode_frame. split.
  - cbn [length]. rewrite !length_app, !length_to_bits. reflexivity.
  - constructor; [exact H0 |].
    apply Forall_app. split; [apply to_bits_are_bits |].
    apply Forall_app. split; [apply to_bits_are_bits |].
    constructor; [exact HN | constructor].
Qed.

(** Taking the two fields back out of a combined ID. *)
Lemma split_combined_id (fc cn : Z) :
  0 <= cn <= 65535 ->
  Z.shiftr (Z.lor (Z.shiftl fc 16) cn) 16 = fc /\
  Z.land (Z.lor (Z.shiftl fc 16) cn) 65535 = cn.
Proof.
  intros Hcn. split.
  - rewrite Z.shiftr_lor, Z.shiftr_shiftl_l by lia.
    rewrite (Z.shiftr_div_pow2 cn) by lia.
    rewrite Z.div_small by (change (2 ^ 16) with 65536; lia).
    cbn. apply Z.lor_0_r.
  - change 65535 with (Z.ones 16).
    rewrite Z.land_lor_distr_l, !Z.land_ones by lia.
    rewrite Z.shiftl_mul_pow2 by lia.
    rewrite Z.mod_mul by (change (2 ^ 16) with 65536; lia).
    rewrite Z.mod_small by (change (2 ^ 16) with 65536; lia).
    reflexivity.
Qed.

Lemma example_is_frame : is_frame example_frame.
Proof. split; [reflexivity | unfold example_frame; all_bits]. Defined.

(** C1: for every frame of exactly 26 bits, each 0 or 1, the decoder returns
    the combined ID [(facility << 16) | card_number], where facility is
    bits 1..8 read big-endian (so within 0..255) and card_number is bits
    9..24 read big-endian (so within 0..65535). *)
Theorem wiegand_combined_id (bits : list Z) :
  length bits = 26%nat -> Forall is_bit bits ->
  0 <= facility bits <= 255 /\
  0 <= card_number bits <= 65535 /\
  fst (_wiegand_process_data bits)
    = Some (Z.lor (Z.shiftl (facility bits) 16) (card_number bits)).
Proof.
  intros Hlen Hbits.
  assert (Hf : is_frame bits) by (split; assumption).
  destruct (fields_in_range bits Hf) as [H1 H2].
  destruct (decode_frame bits Hf) as (p0 & pN & _ & _ & E).
  rewrite E. auto.
Qed.

Lemma wiegand_combined_id_witness :
  fst (_wiegand_process_data example_frame) = Some 6291968.
Proof.
  exact (proj2 (proj2 (wiegand_combined_id example_frame
                         (proj1 example_is_frame) (proj2 example_is_frame)))).
Defined.

(** C2: for every bit sequence whose length is not 26 the decoder returns
    no ID (only the length warning is logged), and the reader thread leaves
    the queue as it was. *)
Theorem wrong_length_rejected (bits : list Z) (q : Queue) :
  length bits <> 26%nat ->
  _wiegand_process_data bits = (None, [(WARNING, MsgWiegandBits (length bits))]) /\
  fst (reader_on_timeout q bits) = q.
Proof.
  intros Hlen.
  assert (E : _wiegand_process_data bits
              = (None, [(WARNING, MsgWiegandBits (length bits))])).
  { unfold _wiegand_process_data, WIEGAND_EXPECTED_BITS.
    apply Nat.eqb_neq in Hlen. rewrite Hlen. reflexivity. }
  split; [exact E |].
  unfold reader_on_timeout. rewrite E. reflexivity.
Qed.

Lemma wrong_length_rejected_witness :
  _wiegand_process_data [1; 0; 1] = (None, [(WARNING, MsgWiegandBits 3)]) /\
  fst (reader_on_timeout wiegand_queue [1; 0; 1]) = wiegand_queue.
Proof.
  apply (wrong_length_rejected [1; 0; 1] wiegand_queue). discriminate.
Defined.

(** C3: on every 26-bit frame a failed parity check does not block the
    extraction: the decoder returns the combined ID of the frame's fields,
    the same ID it returns for the frame with both parity bits set right,
    and a failed check shows only as a warning in the log. *)
Theorem parity_failure_only_logged (bits : list Z) :
  length bits = 26%nat -> Forall is_bit bits ->
  let cid := fst (_wiegand_process_data bits) in
  let lg := snd (_wiegand_process_data bits) in
  cid = Some (Z.lor (Z.shiftl (facility bits) 16) (card_number bits)) /\
  (even_parity_ok (with_parity bits) /\ odd_parity_ok (with_parity bits) /\
   cid = fst (_wiegand_process_data (with_parity bits))) /\
  (In (WARNING, MsgParityEven) lg <-> ~ even_parity_ok bits) /\
  (In (WARNING, MsgParityOdd) lg <-> ~ odd_parity_ok bits) /\
  (forall e, In e lg -> fst e = WARNING \/ fst e = DEBUG).
Proof.
  intros Hlen Hbits cid lg. subst cid lg.
  assert (Hf : is_frame bits) by (split; assumption).
  destruct (decode_frame bits Hf) as (p0 & pN & Hp0 & HpN & E).
  destruct (decode_frame _ (is_frame_with_parity bits Hf)) as (p0' & pN' & _ & _ & E').
  destruct (with_parity_keeps_fields bits Hlen) as (Ef & Ec & Hev & Hod).
  destruct (in_parity_warnings p0 pN
              (MsgWiegandId (facility bits) (card_number bits)
                 (Z.lor (Z.shiftl (facility bits) 16) (card_number bits))))
    as (L0 & LN & Lall).
  rewrite E, E'. cbn [fst snd]. rewrite Ef, Ec.
  repeat split; auto.
  - intros H. apply L0 in H. rewrite <- Hp0. congruence.
  - intros H. apply L0. rewrite <- Hp0 in H. now destruct p0.
  - intros H. apply LN in H. rewrite <- HpN. congruence.
  - intros H. apply LN. rewrite <- HpN in H. now destruct pN.
Qed.

Lemma bad_parity_is_frame : is_frame bad_parity_frame.
Proof. split; [reflexivity | unfold bad_parity_frame; all_bits]. Defined.

Lemma parity_failure_only_logged_witness :
  fst (_wiegand_process_data bad_parity_frame) = Some 6291968 /\
  (In (WARNING, MsgParityEven) (snd (_wiegand_process_data bad_parity_frame))
   <-> ~ even_parity_ok bad_parity_frame).
Proof.
  pose proof (parity_failure_only_logged bad_parity_frame
                (proj1 bad_parity_is_frame) (proj2 bad_parity_is_frame)) as H.
  cbv zeta in H. destruct H as (H1 & _ & H3 & _). split; [exact H1 | exact H3].
Defined.

(** C9: for every facility in 0..255 and card number in 0..65535, the frame
    built by the inverse of the extraction rule (facility in bits 1..8,
    card number in bits 9..24, most significant bit first, any two parity
    bits) decodes to an ID from which both are recovered. *)
Theorem wiegand_round_trip (fc cn p0 pN : Z) :
  0 <= fc <= 255 -> 0 <= cn <= 65535 -> is_bit p0 -> is_bit pN ->
  exists cid,
    fst (_wiegand_process_data (encode_frame p0 fc cn pN)) = Some cid /\
    Z.shiftr cid 16 = fc /\ Z.land cid 65535 = cn.
Proof.
  intros Hfc Hcn H0 HN.
  destruct (decode_frame _ (is_frame_encode p0 fc cn pN H0 HN))
    as (a & b & _ & _ & E).
  destruct (encode_frame_fields p0 fc cn pN Hfc Hcn) as [Ef Ec].
  rewrite Ef, Ec in E.
  exists (Z.lor (Z.shiftl fc 16) cn). rewrite E.
  split; [reflexivity | now apply split_combined_id].
Qed.

Lemma wiegand_round_trip_witness :
  exists cid,
    fst (_wiegand_process_data (encode_frame 1 96 512 1)) = Some cid /\
    Z.shiftr cid 16 = 96 /\ Z.land cid 65535 = 512.
Proof.
  apply (wiegand_round_trip 96 512 1 1); unfold is_bit; try lia; auto.
Defined.

End Decoder.

(* ================================================================== *)
(** * 11. Properties of the credential queue *)
(* ================================================================== *)

Section CredentialQueue.

Lemma put_nowait_no_capacity (q : Queue) (item : string) :
  maxsize q = 0 ->
  put_nowait q item
    = Ok (mkQueue (maxsize q) (items q ++ [item]) (unfinished_tasks q + 1)).
Proof. intros H. unfold put_nowait. rewrite H. reflexivity. Qed.

(** A queue built with a capacity does reject at capacity: the handler of
    the reader thread then drops the ID and logs the error. *)
Lemma put_nowait_at_capacity (q : Queue) (item : string) :
  full q = true -> put_nowait q item = Raise QueueFull.
Proof. unfold full, put_nowait. intros ->. reflexivity. Qed.

Lemma decoder_never_logs_queue_full (bits : list Z) :
  ~ In (ERROR, MsgQueueFull) (snd (_wiegand_process_data bits)).
Proof.
  unfold _wiegand_process_data.
  destruct (negb _); cbn; [intros [H | []]; discriminate |].
  destruct (wiegand_parity bits) as [[p0 pN] |]; cbn;
    [| intros [H | []]; discriminate].
  destruct (wiegand_fields bits) as [[fc cn] |]; cbn;
    destruct p0, pN; cbn; intuition discriminate.
Qed.

(** C6, refuted as stated: the queue of the application has no capacity at
    which an enqueue is rejected. *)
Lemma wiegand_queue_not_bounded : ~ queue_bounded wiegand_queue.
Proof.
  intros [capacity H].
  specialize (H (mkQueue 0 (repeat "1" capacity) 0) "2" eq_refl
                (repeat_length _ _)).
  rewrite put_nowait_no_capacity in H by reflexivity. discriminate.
Qed.

(** C6, amended: the queue of the application is built without a capacity,
    so in every state of it the queue is not full, a non-blocking enqueue is
    accepted and put behind the items already queued, the reader thread
    never takes its queue-full branch, and the next dequeue still returns
    the oldest item. *)
Theorem wiegand_queue_accepts_all (q : Queue) (item : string) :
  is_wiegand_queue q ->
  full q = false /\
  (exists q', put_nowait q item = Ok q' /\
     items q' = items q ++ [item] /\ qsize q' = qsize q + 1 /\
     forall oldest rest, items q = oldest :: rest ->
       exists q'', get_nowait q' = Ok (oldest, q'') /\ items q'' = rest ++ [item]) /\
  (forall bits, ~ In (ERROR, MsgQueueFull) (snd (reader_on_timeout q bits))).
Proof.
  unfold is_wiegand_queue. cbn. intros Hq. split; [| split].
  - unfold full. rewrite Hq. reflexivity.
  - eexists. split; [apply put_nowait_no_capacity; exact Hq |].
    cbn. split; [reflexivity |]. split.
    + unfold qsize. cbn. rewrite length_app. cbn. lia.
    + intros oldest rest E. unfold get_nowait. cbn. rewrite E. cbn.
      eexists. split; reflexivity.
  - intros bits. unfold reader_on_timeout.
    pose proof (decoder_never_logs_queue_full bits) as Hd.
    destruct (_wiegand_process_data bits) as [[cid |] lg]; cbn in *.
    + rewrite put_nowait_no_capacity by exact Hq. cbn.
      rewrite !in_app_iff. cbn. intuition discriminate.
    + intuition discriminate.
Qed.

Lemma wiegand_queue_accepts_all_witness :
  full (mkQueue 0 ["111"; "222"] 2) = false /\
  (exists q', put_nowait (mkQueue 0 ["111"; "222"] 2) "333" = Ok q' /\
     items q' = ["111"; "222"] ++ ["333"] /\
     qsize q' = qsize (mkQueue 0 ["111"; "222"] 2) + 1 /\
     forall oldest rest, ["111"; "222"] = oldest :: rest ->
       exists q'', get_nowait q' = Ok (oldest, q'') /\ items q'' = rest ++ ["333"]) /\
  (forall bits, ~ In (ERROR, MsgQueueFull)
                     (snd (reader_on_timeout (mkQueue 0 ["111"; "222"] 2) bits))).
Proof.
  apply (wiegand_queue_accepts_all (mkQueue 0 ["111"; "222"] 2) "333").
  reflexivity.
Defined.

End CredentialQueue.

(* ================================================================== *)
(** * 12. Properties of the schedule check *)
(* ================================================================== *)

Section Schedule.

(** Python's tuple order on valid times is the order of the moments they
    name. *)
Lemma tuple_compare_since_midnight (a b : time) :
  valid_time a -> valid_time b ->
  tuple_compare (time_tuple a) (time_tuple b)
    = (since_midnight a ?= since_midnight b).
Proof.
  unfold valid_time, since_midnight, time_tuple.
  destruct a as [ha ma sa ua], b as [hb mb sb ub]. cbn.
  intros (Hh & Hm & Hs & Hu) (Hh' & Hm' & Hs' & Hu').
  symmetry.
  destruct (Z.compare_spec ha hb) as [-> | L | L];
    [| apply Z.compare_lt_iff; lia | apply Z.compare_gt_iff; lia].
  destruct (Z.compare_spec ma mb) as [-> | L | L];
    [| apply Z.compare_lt_iff; lia | apply Z.compare_gt_iff; lia].
  destruct (Z.compare_spec sa sb) as [-> | L | L];
    [| apply Z.compare_lt_iff; lia | apply Z.compare_gt_iff; lia].
  destruct (Z.compare_spec ua ub) as [-> | L | L];
    [apply Z.compare_refl | apply Z.compare_lt_iff; lia | apply Z.compare_gt_iff; lia].
Qed.

Lemma time_le_spec (a b : time) :
  valid_time a -> valid_time b ->
  (time_le a b = true <-> since_midnight a <= since_midnight b).
Proof.
  intros Ha Hb. unfold time_le.
  rewrite (tuple_compare_since_midnight a b Ha Hb).
  destruct (Z.compare_spec (since_midnight a) (since_midnight b));
    split; intros; try lia; try reflexivity; discriminate.
Qed.

Lemma time_lt_spec (a b : time) :
  valid_time a -> valid_time b ->
  (time_lt a b = true <-> since_midnight a < since_midnight b).
Proof.
  intros Ha Hb. unfold time_lt.
  rewrite (tuple_compare_since_midnight a b Ha Hb).
  destruct (Z.compare_spec (since_midnight a) (since_midnight b));
    split; intros; try lia; try reflexivity; discriminate.
Qed.

Lemma str_in_spec (x : string) (l : list string) :
  str_in x l = true <-> In x l.
Proof.
  unfold str_in. rewrite existsb_exists. split.
  - intros (y & Hy & E). apply String.eqb_eq in E. now subst.
  - intros H. exists x. split; [exact H | apply String.eqb_refl].
Qed.

Lemma current_weekday_name (d : weekday) :
  lower (strftime_a d) = weekday_name d.
Proof. destruct d; reflexivity. Qed.

Lemma weekday_name_not_empty (d : weekday) : weekday_name d <> "".
Proof. destruct d; discriminate. Qed.

(** [check_schedule] with the schedule enabled, in terms of the allowed-day
    set. *)
Lemma check_schedule_enabled (keyfob : Keyfob) (now : local_now) :
  activation_schedule_enabled keyfob = true ->
  check_schedule keyfob now =
    if str_in (weekday_name (now_weekday now)) (allowed_days keyfob) then
      match activation_start_time keyfob, activation_end_time keyfob with
      | Some start, Some end_ =>
          if time_le start end_
          then time_le start (now_time now) && time_lt (now_time now) end_
          else time_ge (now_time now) start || time_lt (now_time now) end_
      | _, _ => true
      end
    else false.
Proof.
  intros He. unfold check_schedule, allowed_days. rewrite He. cbn [negb].
  rewrite current_weekday_name.
  destruct (activation_days keyfob) as [[| c days] |]; [| | reflexivity].
  - cbn. destruct (now_weekday now); reflexivity.
  - destruct (str_in _ _); cbn [negb]; [| reflexivity].
    destruct (activation_start_time keyfob), (activation_end_time keyfob);
      try reflexivity.
    destruct (time_le t t0); [destruct (_ && _) | destruct (_ || _)]; reflexivity.
Qed.

(** C4: the schedule evaluation of a record, for every local weekday and
    time of day.  Schedule disabled: grant.  Enabled and the weekday not in
    the allowed-day set: deny.  Weekday allowed and no start/end range:
    grant.  Otherwise, with start <= end, grant exactly when
    start <= now < end; with start > end, grant exactly when now >= start or
    now < end.  Times are compared as moments of the day. *)
Theorem check_schedule_policy (keyfob : Keyfob) (now : local_now) :
  (forall t, activation_start_time keyfob = Some t -> valid_time t) ->
  (forall t, activation_end_time keyfob = Some t -> valid_time t) ->
  valid_time (now_time now) ->
  let granted := check_schedule keyfob now = true in
  let denied := check_schedule keyfob now = false in
  let day_allowed := In (weekday_name (now_weekday now)) (allowed_days keyfob) in
  let t := since_midnight (now_time now) in
  (activation_schedule_enabled keyfob = false -> granted) /\
  (activation_schedule_enabled keyfob = true ->
     (~ day_allowed -> denied) /\
     (day_allowed ->
        match activation_start_time keyfob, activation_end_time keyfob with
        | Some start, Some end_ =>
            let s := since_midnight start in
            let e := since_midnight end_ in
            (s <= e -> (granted <-> s <= t < e)) /\
            (s > e -> (granted <-> t >= s \/ t < e))
        | _, _ => granted
        end)).
Proof.
  intros Hs He Hn granted denied day_allowed t.
  subst granted denied day_allowed t. split.
  - intros Hoff. unfold check_schedule. rewrite Hoff. reflexivity.
  - intros Hon. rewrite (check_schedule_enabled keyfob now Hon).
    split; intros Hday.
    + destruct (str_in _ _) eqn:E; [| reflexivity].
      apply str_in_spec in E. contradiction.
    + apply str_in_spec in Hday. rewrite Hday.
      destruct (activation_start_time keyfob) as [start |]; [| reflexivity].
      destruct (activation_end_time keyfob) as [end_ |]; [| reflexivity].
      specialize (Hs start eq_refl). specialize (He end_ eq_refl).
      pose proof (time_le_spec start end_ Hs He) as Hse.
      pose proof (time_le_spec start (now_time now) Hs Hn) as Hst.
      pose proof (time_lt_spec (now_time now) end_ Hn He) as Hte.
      unfold time_ge. cbv zeta.
      destruct (time_le start end_) eqn:Ele.
      * assert (Hle : since_midnight start <= since_midnight end_)
          by (apply Hse; reflexivity).
        split; [intros _ | intros Hgt; lia].
        rewrite andb_true_iff, Hst, Hte. reflexivity.
      * split; [intros Hle; apply Hse in Hle; discriminate | intros _].
        rewrite orb_true_iff, Hst, Hte. split; intros [H | H]; auto; left; lia.
Qed.

(** The night schedule of the specification (22:00 to 06:00): granted at
    23:30, denied at noon. *)
Lemma check_schedule_policy_witness :
  check_schedule night_keyfob (mkNow Mon (mkTime 23 30 0 0)) = true /\
  check_schedule night_keyfob noon_monday <> true.
Proof.
  assert (V : forall h m, 0 <= h < 24 -> 0 <= m < 60 -> valid_time (mkTime h m 0 0))
    by (intros; unfold valid_time; cbn; lia).
  assert (Vs : forall t, activation_start_time night_keyfob = Some t -> valid_time t)
    by (intros t [= <-]; apply V; lia).
  assert (Ve : forall t, activation_end_time night_keyfob = Some t -> valid_time t)
    by (intros t [= <-]; apply V; lia).
  assert (Hday : In (weekday_name Mon) (allowed_days night_keyfob))
    by (left; reflexivity).
  split.
  - pose proof (check_schedule_policy night_keyfob (mkNow Mon (mkTime 23 30 0 0))
                  Vs Ve (V 23 30 ltac:(lia) ltac:(lia))) as H.
    cbv zeta in H. destruct H as [_ H].
    destruct (H eq_refl) as [_ H']. specialize (H' Hday). cbn in H'.
    destruct H' as [_ H']. apply H'; lia.
  - pose proof (check_schedule_policy night_keyfob noon_monday
                  Vs Ve (V 12 0 ltac:(lia) ltac:(lia))) as H.
    cbv zeta in H. destruct H as [_ H].
    destruct (H eq_refl) as [_ H']. specialize (H' Hday). cbn in H'.
    destruct H' as [_ H']. intros G. apply H' in G; lia.
Defined.

End Schedule.

(* ================================================================== *)
(** * 13. Properties of the opening time *)
(* ================================================================== *)

Section OpeningTime.

Lemma dict_lookup_app (d : dict) (k k' : string) (v : json) :
  dict_lookup (d ++ [(k, v)]) k' =
    match dict_lookup d k' with
    | Some x => Some x
    | None => if String.eqb k k' then Some v else None
    end.
Proof.
  induction d as [| [k0 v0] d IH]; cbn; [reflexivity |].
  destruct (String.eqb k0 k'); [reflexivity | exact IH].
Qed.

Lemma dict_get_setdefault_other (d : dict) (k k' : string) (v default : json) :
  String.eqb k k' = false ->
  dict_get (setdefault d k v) k' default = dict_get d k' default.
Proof.
  intros Hk. unfold dict_get, setdefault.
  destruct (dict_lookup d k); [reflexivity |].
  rewrite dict_lookup_app, Hk. destruct (dict_lookup d k'); reflexivity.
Qed.

Lemma dict_get_setdefault_same (d : dict) (k : string) (v : json) :
  dict_get (setdefault d k v) k v = dict_get d k v.
Proof.
  unfold dict_get, setdefault.
  destruct (dict_lookup d k) eqn:E; [now rewrite E |].
  rewrite dict_lookup_app, E, String.eqb_refl. reflexivity.
Qed.

(** The value [get_opening_time] converts, when the file holds an object. *)
Lemma get_opening_time_object (d : dict) :
  get_opening_time (FileJson (JObject d)) =
    match py_int (dict_get d "opening_time" (JInt DEFAULT_OPENING_TIME_SECONDS)) with
    | Ok time_val => Ok (Z.max 1 (Z.min 60 time_val))
    | Raise e =>
        if caught e [ValueError; TypeError] then Ok DEFAULT_OPENING_TIME_SECONDS
        else Raise e
    end.
Proof.
  unfold get_opening_time, load_system_settings, load_json_config, apply_defaults.
  cbn [json_load bind fold_left fst snd config_setdefault config_get].
  rewrite dict_get_setdefault_same.
  rewrite dict_get_setdefault_other by reflexivity.
  destruct (py_int _); reflexivity.
Qed.

(** The other states of the settings file. *)
Lemma get_opening_time_no_object (file : file_state) :
  (forall d, file <> FileJson (JObject d)) ->
  get_opening_time file =
    match file with
    | FileJson _ => Raise AttributeError
    | _ => Ok DEFAULT_OPENING_TIME_SECONDS
    end.
Proof.
  intros H. destruct file as [| | | | v]; try reflexivity.
  destruct v; try reflexivity. now destruct (H members).
Qed.

(** Whenever [get_opening_time] returns, it returns a value in 1..60. *)
Lemma get_opening_time_in_range (file : file_state) (v : Z) :
  get_opening_time file = Ok v -> 1 <= v <= 60.
Proof.
  assert (D : 1 <= DEFAULT_OPENING_TIME_SECONDS <= 60)
    by (unfold DEFAULT_OPENING_TIME_SECONDS; lia).
  destruct file as [| | | | j]; try (intros [= <-]; exact D).
  destruct j; try discriminate.
  rewrite get_opening_time_object.
  destruct (py_int _) as [n | e]; [intros [= <-]; lia |].
  destruct (caught e _); [intros [= <-]; exact D | discriminate].
Qed.

(** The behaviour on an integer, on a missing key, and on values [int()]
    rejects with ValueError or TypeError. *)
Lemma get_opening_time_cases (d : dict) :
  (forall n, dict_lookup d "opening_time" = Some (JInt n) ->
     get_opening_time (FileJson (JObject d)) = Ok (Z.max 1 (Z.min 60 n)) /\
     (1 <= n <= 60 -> get_opening_time (FileJson (JObject d)) = Ok n)) /\
  (dict_lookup d "opening_time" = None ->
     get_opening_time (FileJson (JObject d)) = Ok DEFAULT_OPENING_TIME_SECONDS) /\
  (forall v e, dict_lookup d "opening_time" = Some v -> py_int v = Raise e ->
     caught e [ValueError; TypeError] = true ->
     get_opening_time (FileJson (JObject d)) = Ok DEFAULT_OPENING_TIME_SECONDS).
Proof.
  repeat split.
  - rewrite get_opening_time_object. unfold dict_get. rewrite H. reflexivity.
  - intros Hn. rewrite get_opening_time_object. unfold dict_get. rewrite H.
    cbn. f_equal. lia.
  - intros H. rewrite get_opening_time_object. unfold dict_get. rewrite H.
    reflexivity.
  - intros v e H Hv He. rewrite get_opening_time_object. unfold dict_get.
    rewrite H, Hv, He. reflexivity.
Qed.

(** C10, where the code departs from it: an opening time that JSON reads as
    an infinite float makes [int()] raise OverflowError, which the handler
    for ValueError and TypeError lets through, so [get_opening_time] raises
    instead of returning the default of 5 seconds. *)
Theorem get_opening_time_infinity_raises :
  get_opening_time settings_infinite = Raise OverflowError.
Proof. reflexivity. Qed.

End OpeningTime.

(* ================================================================== *)
(** * 14. Properties of the relay driver *)
(* ================================================================== *)

Section Relay.

(** Every case of the daemon's answers. *)
Ltac each_env env :=
  destruct env as [a b c d e' f]; destruct a, b, c, d, e', f.

Lemma held_for_activation_time (hw : bool) (duration : option Z)
    (file : file_state) (env : pigpio_env) (level seconds : Z) :
  held_for (activate_relay hw duration file env level) seconds ->
  activation_time duration file = Ok seconds.
Proof.
  unfold held_for, activate_relay.
  destruct hw; cbn; [| intros [H | []]; discriminate].
  destruct (activation_time duration file)
    as [t | e]; cbn; [| intros []; fail].
  unfold relay_try, relay_handler, relay_finally, handle_connected.
  each_env env; cbn; destruct (t <? 0); cbn;
    intuition (try discriminate; congruence).
Qed.

(** C5, refuted as stated: a duration passed by the caller is used as it
    is; 120 seconds are slept although 120 is outside 1..60. *)
Lemma explicit_duration_not_clamped :
  held_for (activate_relay true (Some 120) FileMissing daemon_up LOCKED) 120 /\
  returned (activate_relay true (Some 120) FileMissing daemon_up LOCKED)
    = Ok (true, RelayActivated 120).
Proof. split; [cbn; tauto | reflexivity]. Qed.

(** C5, amended: whenever [activate_relay] holds the relay unlocked, it does
    so for the duration the caller passed, taken as given, or, when none was
    passed, for the value [get_opening_time] returned, which lies within
    1..60. *)
Theorem opening_duration_used (hw : bool) (duration : option Z)
    (file : file_state) (env : pigpio_env) (level seconds : Z) :
  held_for (activate_relay hw duration file env level) seconds ->
  match duration with
  | Some d => seconds = d
  | None => get_opening_time file = Ok seconds /\ 1 <= seconds <= 60
  end.
Proof.
  intros H. apply held_for_activation_time in H. unfold activation_time in H.
  destruct duration as [d |]; [congruence |].
  split; [exact H | exact (get_opening_time_in_range file seconds H)].
Qed.

Lemma opening_duration_used_witness :
  get_opening_time settings_500 = Ok 60 /\ 1 <= 60 <= 60.
Proof.
  apply (opening_duration_used true None settings_500 daemon_up LOCKED 60).
  cbn. tauto.
Defined.

(** C8, refuted as stated: the daemon is lost while the relay is held, the
    lock write and its repetition in the handler both raise, and the call
    returns failure with the relay still unlocked. *)
Lemma relay_left_unlocked :
  returned (activate_relay true (Some 5) FileMissing daemon_lost_during_hold LOCKED)
    = Ok (false, RelayFailed PigpioError) /\
  relay_level (activate_relay true (Some 5) FileMissing daemon_lost_during_hold LOCKED)
    = UNLOCKED /\
  trace (activate_relay true (Some 5) FileMissing daemon_lost_during_hold LOCKED)
    = [Log (INFO, MsgRelayActivating 5); Write RELAY_PIN 0 true; Sleep 5;
       Write RELAY_PIN 1 false; Log (ERROR, MsgRelayError PigpioError);
       Write RELAY_PIN 1 false; Log (ERROR, MsgRelaySecondary PigpioError); Stop].
Proof. repeat split. Qed.

Lemma no_hardware_no_write (duration : option Z) (file : file_state)
    (env : pigpio_env) (level : Z) :
  activate_relay false duration file env level
    = mkOutcome (Ok (false, RelayNoHardware)) level [Log (WARNING, MsgHwUnavailable)].
Proof. reflexivity. Qed.

Lemma success_ends_locked (hw : bool) (duration : option Z) (file : file_state)
    (env : pigpio_env) (level t : Z) :
  returned (activate_relay hw duration file env level) = Ok (true, RelayActivated t) ->
  relay_level (activate_relay hw duration file env level) = LOCKED /\
  exists rest,
    trace (activate_relay hw duration file env level)
      = [Log (INFO, MsgRelayActivating t); Write RELAY_PIN 0 true; Sleep t;
         Write RELAY_PIN 1 true] ++ rest.
Proof.
  unfold activate_relay.
  destruct hw; cbn; [| discriminate].
  destruct (activation_time duration file)
    as [t' | e]; cbn; [| discriminate].
  unfold relay_try, relay_handler, relay_finally, handle_connected.
  each_env env; cbn; destruct (t' <? 0); cbn; try discriminate;
    intros [= <-]; (split; [reflexivity | eexists; reflexivity]).
Qed.

Lemma failure_handling (hw : bool) (duration : option Z) (file : file_state)
    (env : pigpio_env) (level : Z) (e : exc) :
  returned (activate_relay hw duration file env level) = Ok (false, RelayFailed e) ->
  (handle_connected env = true ->
     exists before after,
       trace (activate_relay hw duration file env level)
         = before ++ Log (ERROR, MsgRelayError e)
                  :: Write RELAY_PIN 1 (negb (relock_raises env)) :: after) /\
  (handle_connected env = false ->
     exists before,
       trace (activate_relay hw duration file env level)
         = before ++ [Log (ERROR, MsgRelayError e)]).
Proof.
  unfold activate_relay.
  destruct hw; cbn; [| discriminate].
  destruct (activation_time duration file)
    as [t | e0]; cbn; [| discriminate].
  destruct (relay_try env t level) as [[level1 done1] [e1 |]]; cbn;
    [| discriminate].
  unfold relay_handler, relay_finally.
  destruct (handle_connected env); destruct (relock_raises env); cbn;
    intros [= <-]; (split; [intros H | intros H]); try discriminate.
  - exists done1. eexists. reflexivity.
  - exists done1. eexists. reflexivity.
  - exists done1. reflexivity.
  - exists done1. reflexivity.
Qed.

Lemma failure_level (hw : bool) (duration : option Z) (file : file_state)
    (env : pigpio_env) (level : Z) (e : exc) :
  returned (activate_relay hw duration file env level) = Ok (false, RelayFailed e) ->
  (handle_connected env = true -> relock_raises env = false ->
     relay_level (activate_relay hw duration file env level) = LOCKED) /\
  (handle_connected env = false \/ relock_raises env = true ->
     (In (Write RELAY_PIN 0 true) (trace (activate_relay hw duration file env level)) ->
        relay_level (activate_relay hw duration file env level) = UNLOCKED) /\
     (~ In (Write RELAY_PIN 0 true) (trace (activate_relay hw duration file env level)) ->
        relay_level (activate_relay hw duration file env level) = level)).
Proof.
  unfold activate_relay.
  destruct hw; cbn; [| discriminate].
  destruct (activation_time duration file)
    as [t | e0]; cbn; [| discriminate].
  unfold relay_try, relay_handler, relay_finally, handle_connected.
  each_env env; cbn; destruct (t <? 0); cbn; try discriminate; intros _;
    (split; [intros; try reflexivity; discriminate |]);
    intros [H | H]; try discriminate;
    (split; [intros Hin; try reflexivity;
             repeat (destruct Hin as [Hin | Hin]; try discriminate); contradiction
            | intros Hn; try reflexivity; exfalso; apply Hn; tauto]).
Qed.

(** C8, amended: on the relay after a momentary open.  Without hardware the
    call fails at once and writes nothing.  A call that returns success has
    written the locked level after the hold and leaves the relay locked.  A
    call that returns failure has, right after logging the failure, written
    the locked level once more exactly when a daemon handle exists and
    reports connected; the relay is then locked if that write took effect;
    when it was not made or raised too, the relay is unlocked if the unlock
    write had taken effect and at its initial level otherwise. *)
Theorem activate_relay_lock_state (hw : bool) (duration : option Z)
    (file : file_state) (env : pigpio_env) (level : Z) :
  let o := activate_relay hw duration file env level in
  (hw = false ->
     returned o = Ok (false, RelayNoHardware) /\ relay_level o = level /\
     trace o = [Log (WARNING, MsgHwUnavailable)]) /\
  (forall t, returned o = Ok (true, RelayActivated t) ->
     relay_level o = LOCKED /\
     exists rest,
       trace o = [Log (INFO, MsgRelayActivating t); Write RELAY_PIN 0 true;
                  Sleep t; Write RELAY_PIN 1 true] ++ rest) /\
  (forall e, returned o = Ok (false, RelayFailed e) ->
     (handle_connected env = true ->
        (exists before after,
           trace o = before ++ Log (ERROR, MsgRelayError e)
                       :: Write RELAY_PIN 1 (negb (relock_raises env)) :: after) /\
        (relock_raises env = false -> relay_level o = LOCKED)) /\
     (handle_connected env = false ->
        exists before, trace o = before ++ [Log (ERROR, MsgRelayError e)]) /\
     (handle_connected env = false \/ relock_raises env = true ->
        (In (Write RELAY_PIN 0 true) (trace o) -> relay_level o = UNLOCKED) /\
        (~ In (Write RELAY_PIN 0 true) (trace o) -> relay_level o = level))).
Proof.
  intros o. subst o. split; [| split].
  - intros ->. rewrite no_hardware_no_write. cbn. auto.
  - intros t. apply success_ends_locked.
  - intros e He.
    destruct (failure_handling _ _ _ _ _ _ He) as [Hc Hn].
    destruct (failure_level _ _ _ _ _ _ He) as [Hl Hk].
    repeat split; auto; try (apply Hk; assumption).
Qed.

End Relay.

(* ================================================================== *)
(** * 15. Properties of the queue task *)
(* ================================================================== *)

Section QueueTask.

(** An operational error of the database on the oldest item: the loop stops
    there; the item has left the queue, no [task_done] was counted for it,
    and nothing puts it back. *)
Lemma operational_error_drops_item (w : world) (st : state)
    (uid : string) (rest : list string) (budget : nat) :
  items (queue st) = uid :: rest ->
  db w uid = LookupRaises OperationalError ->
  items (queue (process_loop w (S budget) st)) = rest /\
  unfinished_tasks (queue (process_loop w (S budget) st))
    = unfinished_tasks (queue st).
Proof.
  intros Hq Hdb. cbn [process_loop].
  unfold empty, qsize, get_nowait. rewrite Hq. cbn.
  unfold decide. rewrite Hdb. cbn. auto.
Qed.

(** Any other exception of the lookup: the item is counted as done and the
    loop goes on with the rest of the queue. *)
Lemma other_error_consumes_item (w : world) (st : state)
    (uid : string) (rest : list string) (budget : nat) (e : exc) :
  items (queue st) = uid :: rest ->
  db w uid = LookupRaises e ->
  issubclass e OperationalError = false -> issubclass e QueueEmpty = false ->
  0 < unfinished_tasks (queue st) ->
  process_loop w (S budget) st =
    process_loop w budget
      (mkState (mkQueue (maxsize (queue st)) rest (unfinished_tasks (queue st) - 1))
               (relay st) (access_log st)
               (history st ++ [Log (INFO, MsgProcessing uid);
                               Log (ERROR, MsgProcessError uid e)])).
Proof.
  intros Hq Hdb Hop Hem Hun. cbn [process_loop].
  unfold empty, qsize, get_nowait. rewrite Hq. cbn.
  unfold decide. rewrite Hdb. cbn.
  unfold on_exception. rewrite Hem, Hop. cbn.
  unfold task_done. cbn.
  destruct (unfinished_tasks (queue st) - 1 <? 0) eqn:E;
    [apply Z.ltb_lt in E; lia |].
  cbn. unfold set_queue. cbn. rewrite <- app_assoc. reflexivity.
Qed.

(** C7, where the code departs from it: two credentials are queued and the
    database is unavailable during the first tick.  The tick takes up "111"
    and stops; "111" is no longer in the queue although it was not counted
    as done.  The next tick, with the database back, takes up "222" only:
    "111" is never processed again and no access event is recorded for
    it. *)
Theorem operational_error_item_not_retried :
  let tick1 := process_wiegand_queue_task (world_with db_down) two_queued in
  let tick2 := process_wiegand_queue_task (world_with db_empty) tick1 in
  items (queue tick1) = ["222"] /\
  unfinished_tasks (queue tick1) = 2 /\
  processed_uids (history tick1) = ["111"] /\
  processed_uids (history tick2) = ["111"; "222"] /\
  access_log tick2 = [mkAccess "222" None false ReasonUnknown] /\
  items (queue tick2) = [].
Proof. cbv zeta. repeat split. Qed.

End QueueTask.

(* ================================================================== *)
(** * 16. Further properties of the decoder *)
(* ================================================================== *)

Section DecoderRange.

Lemma lor_shiftl_16 (fc cn : Z) :
  0 <= cn <= 65535 -> Z.lor (Z.shiftl fc 16) cn = fc * 65536 + cn.
Proof.
  intros Hcn.
  assert (Hland : Z.land (Z.shiftl fc 16) cn = 0).
  { rewrite <- (Z.mod_small cn (2 ^ 16)) by (change (2 ^ 16) with 65536; lia).
    rewrite <- Z.land_ones by lia.
    rewrite (Z.land_comm cn), Z.land_assoc, Z.land_ones by lia.
    rewrite Z.shiftl_mul_pow2 by lia.
    rewrite Z.mod_mul by (change (2 ^ 16) with 65536; lia).
    apply Z.land_0_l. }
  pose proof (Z.add_lor_land (Z.shiftl fc 16) cn) as H.
  rewrite Hland, Z.add_0_r in H. rewrite H.
  rewrite Z.shiftl_mul_pow2 by lia. reflexivity.
Qed.

Lemma fold_bits_acc (l : list Z) (acc : Z) :
  fold_left (fun a b => 2 * a + b) l acc
    = acc * 2 ^ Z.of_nat (length l) + be_value l.
Proof.
  unfold be_value. revert acc.
  induction l as [| b l IH]; intros acc; cbn [fold_left length].
  - cbn. lia.
  - rewrite IH, (IH (2 * 0 + b)).
    rewrite Nat2Z.inj_succ, Z.pow_succ_r by lia. ring.
Qed.

Lemma be_value_cons (b : Z) (l : list Z) :
  be_value (b :: l) = b * 2 ^ Z.of_nat (length l) + be_value l.
Proof.
  unfold be_value at 1. cbn [fold_left]. rewrite fold_bits_acc. f_equal.
Qed.

(** Bit sequences of one length with one value are the same sequence. *)
Lemma be_value_injective (l l' : list Z) :
  Forall is_bit l -> Forall is_bit l' -> length l = length l' ->
  be_value l = be_value l' -> l = l'.
Proof.
  intros Hl. revert l'.
  induction Hl as [| b l Hb Hl IH]; intros l' Hl' Hlen Hv.
  - destruct l'; [reflexivity | discriminate].
  - destruct l' as [| b' l']; [discriminate |].
    inversion Hl' as [| ? ? Hb' Hl'']; subst.
    injection Hlen as Hlen.
    rewrite !be_value_cons, Hlen in Hv.
    pose proof (be_value_bounds l Hl) as B. rewrite Hlen in B.
    pose proof (be_value_bounds l' Hl'') as B'.
    assert (0 < 2 ^ Z.of_nat (length l')) by (apply Z.pow_pos_nonneg; lia).
    assert (b = b') by (destruct Hb as [-> | ->], Hb' as [-> | ->]; nia).
    subst b'. f_equal. apply IH; auto. lia.
Qed.

Lemma frame_payload_split (bits : list Z) :
  length bits = 26%nat -> slice 1 25 bits = slice 1 9 bits ++ slice 9 25 bits.
Proof. intros Hlen. spell_out_frame bits Hlen. reflexivity. Qed.

(** The ID of a frame is [facility * 65536 + card_number], a number below
    2^24. *)
Theorem wiegand_id_is_24_bits (bits : list Z) :
  length bits = 26%nat -> Forall is_bit bits ->
  fst (_wiegand_process_data bits)
    = Some (facility bits * 65536 + card_number bits) /\
  0 <= facility bits * 65536 + card_number bits < 16777216.
Proof.
  intros Hlen Hbits.
  assert (Hf : is_frame bits) by (split; assumption).
  destruct (fields_in_range bits Hf) as [H1 H2].
  destruct (decode_frame bits Hf) as (p0 & pN & _ & _ & E).
  rewrite E. cbn [fst]. rewrite lor_shiftl_16 by exact H2.
  split; [reflexivity | lia].
Qed.

Lemma wiegand_id_is_24_bits_witness :
  fst (_wiegand_process_data example_frame) = Some (96 * 65536 + 512) /\
  0 <= 96 * 65536 + 512 < 16777216.
Proof.
  exact (wiegand_id_is_24_bits example_frame
           (proj1 example_is_frame) (proj2 example_is_frame)).
Defined.

(** Two frames that decode to the same ID carry the same bits 1..24: the
    decoder tells apart every two credentials, and forgets nothing but the
    parity bits. *)
Theorem wiegand_id_determines_payload (bits bits' : list Z) :
  length bits = 26%nat -> Forall is_bit bits ->
  length bits' = 26%nat -> Forall is_bit bits' ->
  fst (_wiegand_process_data bits) = fst (_wiegand_process_data bits') ->
  slice 1 25 bits = slice 1 25 bits'.
Proof.
  intros Hlen Hbits Hlen' Hbits' E.
  assert (Hf : is_frame bits) by (split; assumption).
  assert (Hf' : is_frame bits') by (split; assumption).
  destruct (fields_in_range bits Hf) as [H1 H2].
  destruct (fields_in_range bits' Hf') as [H1' H2'].
  destruct (decode_frame bits Hf) as (p0 & pN & _ & _ & D).
  destruct (decode_frame bits' Hf') as (p0' & pN' & _ & _ & D').
  rewrite D, D' in E. cbn [fst] in E.
  assert (E' : Z.lor (Z.shiftl (facility bits) 16) (card_number bits)
               = Z.lor (Z.shiftl (facility bits') 16) (card_number bits'))
    by congruence.
  clear E. rename E' into E.
  destruct (split_combined_id (facility bits) (card_number bits) H2) as [Sf Sc].
  destruct (split_combined_id (facility bits') (card_number bits') H2') as [Sf' Sc'].
  rewrite E in Sf, Sc.
  assert (Ef : facility bits = facility bits') by congruence.
  assert (Ec : card_number bits = card_number bits') by congruence.
  rewrite (frame_payload_split bits Hlen), (frame_payload_split bits' Hlen').
  f_equal.
  - apply be_value_injective; try (now apply Forall_slice); [| exact Ef].
    rewrite !length_slice by lia. reflexivity.
  - apply be_value_injective; try (now apply Forall_slice); [| exact Ec].
    rewrite !length_slice by lia. reflexivity.
Qed.

Lemma wiegand_id_determines_payload_witness :
  slice 1 25 example_frame = slice 1 25 bad_parity_frame.
Proof.
  apply (wiegand_id_determines_payload example_frame bad_parity_frame
           (proj1 example_is_frame) (proj2 example_is_frame)
           (proj1 bad_parity_is_frame) (proj2 bad_parity_is_frame)).
  reflexivity.
Defined.

End DecoderRange.

(* ================================================================== *)
(** * 17. Properties of the pulse capture and the reader loop *)
(* ================================================================== *)

Section PulseCapture.

Lemma edge_bit_is_bit (e : edge) (b : Z) : edge_bit e = Some b -> is_bit b.
Proof.
  unfold edge_bit, is_bit.
  destruct (edge_level e =? 0); [| discriminate].
  destruct (edge_gpio e =? WIEGAND_PIN_D0); [intros [= <-]; auto |].
  destruct (edge_gpio e =? WIEGAND_PIN_D1); [intros [= <-]; auto | discriminate].
Qed.

Lemma edge_bits_are_bits (edges : list edge) : Forall is_bit (edge_bits edges).
Proof.
  induction edges as [| e edges IH]; cbn; [constructor |].
  destruct (edge_bit e) eqn:E; [| exact IH].
  constructor; [exact (edge_bit_is_bit e z E) | exact IH].
Qed.

(** One call of the callback, by what the edge stands for. *)
Lemma callback_step (e : edge) (c : collector) :
  _wiegand_pulse_callback (edge_gpio e) (edge_level e) (edge_tick e) c =
    match edge_bit e with
    | Some b =>
        if Nat.leb 34 (length (_wiegand_bits_collector c)) then c
        else mkCollector (_wiegand_bits_collector c ++ [b]) (edge_tick e)
    | None => c
    end.
Proof.
  unfold _wiegand_pulse_callback, edge_bit, WIEGAND_EXPECTED_BITS.
  change (26 + 8)%nat with 34%nat.
  destruct (edge_level e =? 0); [| reflexivity].
  destruct (Nat.leb 34 _);
    destruct (edge_gpio e =? WIEGAND_PIN_D0);
    destruct (edge_gpio e =? WIEGAND_PIN_D1); reflexivity.
Qed.

Lemma capture_cons (e : edge) (edges : list edge) (c : collector) :
  capture (e :: edges) c
    = capture edges
        (_wiegand_pulse_callback (edge_gpio e) (edge_level e) (edge_tick e) c).
Proof. reflexivity. Qed.

Lemma captured_bits_from (edges : list edge) (c : collector) :
  (length (_wiegand_bits_collector c) <= 34)%nat ->
  _wiegand_bits_collector (capture edges c)
    = firstn 34 (_wiegand_bits_collector c ++ edge_bits edges).
Proof.
  revert c. induction edges as [| e edges IH]; intros c Hc.
  - unfold capture. cbn [fold_left edge_bits]. rewrite app_nil_r.
    symmetry. now apply firstn_all2.
  - rewrite capture_cons, callback_step. cbn [edge_bits].
    destruct (edge_bit e) as [b |]; [| now apply IH].
    destruct (Nat.leb 34 _) eqn:L.
    + apply Nat.leb_le in L. rewrite (IH c Hc).
      rewrite !firstn_app_exact by lia. reflexivity.
    + apply Nat.leb_gt in L. rewrite IH.
      * cbn [_wiegand_bits_collector]. now rewrite <- app_assoc.
      * cbn [_wiegand_bits_collector]. rewrite length_app. cbn [length]. lia.
Qed.

(** Whatever edges arrive after the collector was emptied, it holds the bits
    of the falling edges on the two data lines (D0: 0, D1: 1), in order, up
    to 34 of them: other edges and further bits are ignored, and every
    element is 0 or 1. *)
Theorem pulse_capture_collects (edges : list edge) (t0 : Z) :
  let c := capture edges (mkCollector [] t0) in
  _wiegand_bits_collector c = firstn 34 (edge_bits edges) /\
  (length (_wiegand_bits_collector c) <= 34)%nat /\
  Forall is_bit (_wiegand_bits_collector c).
Proof.
  cbv zeta.
  rewrite captured_bits_from by (cbn; lia). cbn [app _wiegand_bits_collector].
  split; [reflexivity |]. split.
  - rewrite length_firstn. lia.
  - apply Forall_firstn_keeps, edge_bits_are_bits.
Qed.

Lemma last_default (l : list Z) (d d' : Z) : l <> [] -> last l d = last l d'.
Proof.
  induction l as [| x l IH]; [contradiction |]. intros _.
  destruct l as [| y l]; [reflexivity |].
  change (last (y :: l) d = last (y :: l) d'). apply IH. discriminate.
Qed.

Lemma last_cons (t : Z) (l : list Z) (d : Z) : last (t :: l) d = last l t.
Proof.
  destruct l as [| y l]; [reflexivity |].
  change (last (y :: l) d = last (y :: l) t). apply last_default. discriminate.
Qed.

Lemma capture_pulses (bits ticks : list Z) (c : collector) :
  Forall is_bit bits -> length bits = length ticks ->
  (length (_wiegand_bits_collector c) + length bits <= 34)%nat ->
  capture (pulses bits ticks) c
    = mkCollector (_wiegand_bits_collector c ++ bits)
                  (last ticks (_last_pulse_tick c)).
Proof.
  intros Hbits. revert ticks c.
  induction Hbits as [| b bits Hb _ IH]; intros ticks c Hlen Hroom.
  - destruct ticks; [| discriminate]. cbn. rewrite app_nil_r. now destruct c.
  - destruct ticks as [| t ticks]; [discriminate |].
    injection Hlen as Hlen. cbn [length] in Hroom.
    unfold pulses. cbn [combine map fst snd]. fold (pulses bits ticks).
    rewrite capture_cons, callback_step.
    assert (Eb : edge_bit (pulse b t) = Some b)
      by (destruct Hb as [-> | ->]; reflexivity).
    rewrite Eb.
    destruct (Nat.leb 34 _) eqn:L; [apply Nat.leb_le in L; lia |].
    rewrite IH;
      [| exact Hlen
       | cbn [_wiegand_bits_collector]; rewrite length_app; cbn [length]; lia].
    cbn [_wiegand_bits_collector _last_pulse_tick edge_tick pulse].
    rewrite <- app_assoc, last_cons. reflexivity.
Qed.

(** From a card to the queue: the 26 pulses of the frame that carries
    facility [fc] and card number [cn], followed by more than 50 ms without
    a pulse, make the next pass of the reader loop put the decimal text of
    [fc * 65536 + cn] at the tail of the queue and empty the collector. *)
Theorem card_read_is_queued (fc cn p0 pN t0 tick_now : Z) (ticks : list Z)
    (q : Queue) :
  0 <= fc <= 255 -> 0 <= cn <= 65535 -> is_bit p0 -> is_bit pN ->
  length ticks = 26%nat -> is_wiegand_queue q ->
  tickDiff (last ticks t0) tick_now > 50000 ->
  let c := capture (pulses (encode_frame p0 fc cn pN) ticks) (mkCollector [] t0) in
  _wiegand_bits_collector c = encode_frame p0 fc cn pN /\
  fst (reader_poll tick_now c q)
    = (mkCollector [] tick_now,
       mkQueue (maxsize q) (items q ++ [py_str (fc * 65536 + cn)])
               (unfinished_tasks q + 1)).
Proof.
  intros Hfc Hcn H0 HN Hticks Hq Hquiet c.
  pose proof (is_frame_encode p0 fc cn pN H0 HN) as [Hlen Hbits].
  assert (Ec : c = mkCollector (encode_frame p0 fc cn pN) (last ticks t0)).
  { subst c. rewrite capture_pulses; [reflexivity | exact Hbits | lia |].
    cbn [_wiegand_bits_collector length Nat.add]. lia. }
  rewrite Ec. cbn [_wiegand_bits_collector]. split; [reflexivity |].
  unfold reader_poll. cbn [_wiegand_bits_collector _last_pulse_tick].
  rewrite Hlen. cbn [Nat.ltb Nat.leb].
  assert (G : (tickDiff (last ticks t0) tick_now >? WIEGAND_TIMEOUT_MS * 1000) = true)
    by (apply Z.gtb_lt; unfold WIEGAND_TIMEOUT_MS; lia).
  rewrite G.
  destruct (decode_frame _ (conj Hlen Hbits)) as (a & b & _ & _ & D).
  destruct (encode_frame_fields p0 fc cn pN Hfc Hcn) as [Ef Ecn].
  rewrite Ef, Ecn, lor_shiftl_16 in D by exact Hcn.
  unfold reader_on_timeout. rewrite D.
  rewrite put_nowait_no_capacity by exact Hq. reflexivity.
Qed.

Lemma card_read_is_queued_witness :
  _wiegand_bits_collector
    (capture (pulses (encode_frame 1 96 512 1) (repeat 1000 26)) (mkCollector [] 0))
    = encode_frame 1 96 512 1 /\
  fst (reader_poll 60000
         (capture (pulses (encode_frame 1 96 512 1) (repeat 1000 26)) (mkCollector [] 0))
         wiegand_queue)
    = (mkCollector [] 60000,
       mkQueue (maxsize wiegand_queue)
               (items wiegand_queue ++ [py_str (96 * 65536 + 512)])
               (unfinished_tasks wiegand_queue + 1)).
Proof.
  apply (card_read_is_queued 96 512 1 1 0 60000 (repeat 1000 26) wiegand_queue);
    unfold is_bit, is_wiegand_queue; try lia; auto.
  cbn. lia.
Defined.



End PulseCapture.

(* ================================================================== *)
(** * 18. Properties of the settings file and of setting the opening time *)
(* ================================================================== *)

Section Settings.


Lemma apply_defaults_object (defaults d : dict) :
  apply_defaults (JObject d) defaults
    = Ok (JObject (fold_left (fun c kv => setdefault c (fst kv) (snd kv)) defaults d)).
Proof.
  unfold apply_defaults. revert d.
  induction defaults as [| [k v] defaults IH]; intros d; [reflexivity |].
  cbn [fold_left bind config_setdefault fst snd]. apply IH.
Qed.



Lemma dict_lookup_set_same (d : dict) (k : string) (v : json) :
  dict_lookup (dict_set d k v) k = Some v.
Proof.
  induction d as [| [k0 v0] d IH]; cbn.
  - now rewrite String.eqb_refl.
  - destruct (String.eqb k0 k) eqn:E; cbn; rewrite E; [reflexivity | exact IH].
Qed.

Lemma dict_lookup_set_other (d : dict) (k key : string) (v : json) :
  k <> key -> dict_lookup (dict_set d k v) key = dict_lookup d key.
Proof.
  intros Hne. induction d as [| [k0 v0] d IH]; cbn.
  - destruct (String.eqb_spec k key); [contradiction | reflexivity].
  - destruct (String.eqb_spec k0 k) as [-> |]; cbn.
    + destruct (String.eqb_spec k key); [contradiction | reflexivity].
    + destruct (String.eqb k0 key); [reflexivity | exact IH].
Qed.

Lemma load_system_settings_object (file : file_state) (settings : json) :
  load_system_settings file = Ok settings -> exists d, settings = JObject d.
Proof.
  unfold load_system_settings.
  destruct file as [| | | | v]; try (intros [= <-]; eexists; reflexivity);
    try discriminate.
  destruct v; try discriminate.
  unfold load_json_config. cbn [json_load bind].
  rewrite apply_defaults_object. intros [= <-]. eexists. reflexivity.
Qed.

(** What a call of [set_opening_time] that reports success has done. *)
Lemma set_opening_time_success (n : Z) (file file' : file_state)
    (w : write_outcome) (msg : set_message) :
  set_opening_time n file w = ((true, msg), file') ->
  1 <= n <= 60 /\ msg = SetDone n /\
  exists d, load_system_settings file = Ok (JObject d) /\
            file' = FileJson (JObject (dict_set d "opening_time" (JInt n))).
Proof.
  unfold set_opening_time.
  destruct ((1 <=? n) && (n <=? 60)) eqn:R; cbn [negb]; [| discriminate].
  apply andb_true_iff in R. destruct R as [R1 R2].
  apply Z.leb_le in R1. apply Z.leb_le in R2.
  destruct (load_system_settings file) as [settings | e] eqn:L;
    cbn [bind]; [| discriminate].
  destruct (load_system_settings_object file settings L) as [d ->].
  cbn [config_setitem]. unfold save_system_settings, save_json_config.
  destruct w; [| discriminate].
  intros [= <- <-]. split; [lia |]. split; [reflexivity |].
  exists d. split; reflexivity.
Qed.

(** After [set_opening_time(n)] reports success, [n] is within 1..60 and
    [get_opening_time] reads back exactly [n], whatever the settings file
    held before. *)
Theorem set_then_get_opening_time (n : Z) (file file' : file_state)
    (w : write_outcome) (msg : set_message) :
  set_opening_time n file w = ((true, msg), file') ->
  1 <= n <= 60 /\ get_opening_time file' = Ok n.
Proof.
  intros H. destruct (set_opening_time_success _ _ _ _ _ H)
    as (Hn & _ & d & _ & ->).
  split; [exact Hn |].
  rewrite get_opening_time_object. unfold dict_get.
  rewrite dict_lookup_set_same. cbn [py_int]. f_equal. lia.
Qed.

Lemma set_then_get_opening_time_witness :
  1 <= 7 <= 60 /\
  get_opening_time (FileJson (JObject [("opening_time", JInt 7);
                                       ("alerts_enabled", JBool true)])) = Ok 7.
Proof.
  apply (set_then_get_opening_time 7 settings_infinite _ WriteOk (SetDone 7)).
  reflexivity.
Defined.

(** A successful [set_opening_time] changes the opening time only: every
    other setting of the file, and every default it lacked, is written back
    as it was loaded. *)
Theorem set_opening_time_keeps_other_settings (n : Z) (file file' : file_state)
    (w : write_outcome) (msg : set_message) :
  set_opening_time n file w = ((true, msg), file') ->
  exists d d',
    load_system_settings file = Ok (JObject d) /\
    file' = FileJson (JObject d') /\
    forall key, key <> "opening_time" -> dict_lookup d' key = dict_lookup d key.
Proof.
  intros H. destruct (set_opening_time_success _ _ _ _ _ H)
    as (_ & _ & d & L & ->).
  exists d. eexists. split; [exact L |]. split; [reflexivity |].
  intros key Hk. apply dict_lookup_set_other. congruence.
Qed.

Lemma set_opening_time_keeps_other_settings_witness :
  exists d d',
    load_system_settings settings_500 = Ok (JObject d) /\
    FileJson (JObject [("opening_time", JInt 7); ("alerts_enabled", JBool true)])
      = FileJson (JObject d') /\
    forall key, key <> "opening_time" -> dict_lookup d' key = dict_lookup d key.
Proof.
  apply (set_opening_time_keeps_other_settings 7 settings_500 _ WriteOk (SetDone 7)).
  reflexivity.
Defined.

(** The settings file changes through [api_set_opening_time] only with a
    response of 200 or 500: a refused request (400) and a request whose
    handling raises leave the file as it was. *)
Theorem api_refusal_leaves_settings (data : request_data) (file file' : file_state)
    (w : write_outcome) (response : result Z) :
  api_set_opening_time data file w = (response, file') ->
  response <> Ok 200 -> response <> Ok 500 -> file' = file.
Proof.
  unfold api_set_opening_time.
  destruct (request_get data "opening_time") as [v | e]; [| now intros [= <- <-]].
  destruct (requested_time v) as [n | e].
  - destruct (set_opening_time n file w) as [[success m] f].
    destruct success; intros [= <- <-]; congruence.
  - destruct (caught e _); now intros [= <- <-].
Qed.

Lemma api_refusal_leaves_settings_witness : settings_500 = settings_500.
Proof.
  apply (api_refusal_leaves_settings
           (FormData [("opening_time", "61")]) settings_500 settings_500
           WriteOk (Ok 400)); [reflexivity | discriminate | discriminate].
Defined.



End Settings.

(* ================================================================== *)
(** * 19. Properties of locking and unlocking *)
(* ================================================================== *)

Section Door.

Ltac each_daemon env :=
  destruct env as [a b c d e' f]; destruct a, b, c, d, e', f.

(** [lock_door] only ever writes the locked level to the relay pin: when it
    returns success the relay is locked, when it returns failure the relay
    is at the level it had, and without hardware nothing is done at all. *)
Theorem lock_door_only_locks (hw : bool) (env : pigpio_env) (level : Z) :
  let o := lock_door hw env level in
  (fst (door_returned o) = true -> door_level o = LOCKED) /\
  (fst (door_returned o) = false -> door_level o = level) /\
  (forall pin lv ok, In (Did (Write pin lv ok)) (door_steps o) ->
     pin = RELAY_PIN /\ lv = LOCKED) /\
  (hw = false -> door_steps o = []).
Proof.
  cbv zeta. unfold lock_door, door_write, door_finally, handle_connected.
  destruct hw; cbn; [| repeat split; intros; try discriminate; tauto].
  each_daemon env; cbn; repeat split; intros; try discriminate;
    try reflexivity;
    repeat match goal with
           | H : _ \/ _ |- _ => destruct H
           | H : Did _ = Did _ |- _ => injection H as <- <- <-
           | H : False |- _ => destruct H
           end; try discriminate; reflexivity.
Qed.

(** [unlock_door_permanently] never writes the locked level: when it
    returns success the relay is unlocked and stays so when the call
    returns, and the unlocking is logged at WARNING level; when it returns
    failure the relay is at the level it had. *)
Theorem unlock_is_permanent (hw : bool) (env : pigpio_env) (level : Z) :
  let o := unlock_door_permanently hw env level in
  (fst (door_returned o) = true ->
     door_level o = UNLOCKED /\
     In (Said WARNING LineUnlockedPermanently) (door_steps o)) /\
  (fst (door_returned o) = false -> door_level o = level) /\
  (forall pin lv ok, In (Did (Write pin lv ok)) (door_steps o) ->
     pin = RELAY_PIN /\ lv = UNLOCKED).
Proof.
  cbv zeta.
  unfold unlock_door_permanently, door_write, door_finally, handle_connected.
  destruct hw; cbn; [| repeat split; intros; try discriminate; tauto].
  each_daemon env; cbn; repeat split; intros; try discriminate;
    try reflexivity; try tauto;
    repeat match goal with
           | H : _ \/ _ |- _ => destruct H
           | H : Did _ = Did _ |- _ => injection H as <- <- <-
           | H : False |- _ => destruct H
           end; try discriminate; reflexivity.
Qed.

(** A permanent unlock does not outlast the next successful operation:
    after [unlock_door_permanently] has succeeded, a successful [lock_door]
    and a successful momentary open ([activate_relay]) both leave the relay
    locked. *)
Theorem permanent_unlock_is_ended (env0 env1 : pigpio_env) (level : Z)
    (duration : option Z) (file : file_state) (t : Z) :
  let unlocked := door_level (unlock_door_permanently true env0 level) in
  fst (door_returned (unlock_door_permanently true env0 level)) = true ->
  unlocked = UNLOCKED /\
  (fst (door_returned (lock_door true env1 unlocked)) = true ->
     door_level (lock_door true env1 unlocked) = LOCKED) /\
  (returned (activate_relay true duration file env1 unlocked)
     = Ok (true, RelayActivated t) ->
   relay_level (activate_relay true duration file env1 unlocked) = LOCKED).
Proof.
  cbv zeta. intros Hu.
  assert (U : door_level (unlock_door_permanently true env0 level) = UNLOCKED).
  { revert Hu.
    unfold unlock_door_permanently, door_write, door_finally, handle_connected.
    each_daemon env0; cbn; intros; try discriminate; reflexivity. }
  rewrite U. split; [reflexivity |]. split.
  - unfold lock_door, door_write, door_finally, handle_connected.
    each_daemon env1; cbn; intros; try discriminate; reflexivity.
  - intros Ha. exact (proj1 (success_ends_locked _ _ _ _ _ _ Ha)).
Qed.

Lemma permanent_unlock_is_ended_witness :
  door_level (unlock_door_permanently true daemon_up LOCKED) = UNLOCKED /\
  (fst (door_returned
          (lock_door true daemon_up
             (door_level (unlock_door_permanently true daemon_up LOCKED)))) = true ->
   door_level
     (lock_door true daemon_up
        (door_level (unlock_door_permanently true daemon_up LOCKED))) = LOCKED) /\
  (returned
     (activate_relay true None FileMissing daemon_up
        (door_level (unlock_door_permanently true daemon_up LOCKED)))
     = Ok (true, RelayActivated 5) ->
   relay_level
     (activate_relay true None FileMissing daemon_up
        (door_level (unlock_door_permanently true daemon_up LOCKED))) = LOCKED).
Proof.
  apply (permanent_unlock_is_ended daemon_up daemon_up LOCKED None FileMissing 5).
  reflexivity.
Defined.

End Door.

(* ================================================================== *)
(** * 20. When the opening time cannot be read *)
(* ================================================================== *)

Section OpeningTimeFailures.

Lemma dec_digits_raises (s : string) (acc : Z) (after_digit : bool) (e : exc) :
  dec_digits s acc after_digit = Raise e -> e = ValueError.
Proof.
  revert acc after_digit.
  induction s as [| c s IH]; intros acc after_digit; cbn.
  - destruct after_digit; congruence.
  - destruct (digit_value c); [apply IH |].
    destruct (c =? "_")%char.
    + destruct after_digit; [apply IH | congruence].
    + destruct (after_digit && is_space c && all_space s); congruence.
Qed.

Lemma int_of_str_raises (s : string) (e : exc) :
  int_of_str s = Raise e -> e = ValueError.
Proof.
  unfold int_of_str.
  destruct (lstrip s) as [| c rest]; [cbn; congruence |].
  destruct c as [[] [] [] [] [] [] [] []];
    try apply dec_digits_raises;
    unfold bind;
    (destruct (dec_digits rest 0 false) eqn:E;
       [congruence | intros [= <-]; exact (dec_digits_raises _ _ _ _ E)]).
Qed.

Lemma py_int_raises (v : json) (e : exc) :
  py_int v = Raise e ->
  caught e [ValueError; TypeError] = true \/
  (e = OverflowError /\ exists negative, v = JFloat (Infinity negative)).
Proof.
  destruct v as [| b | n | f | s | l | d]; cbn; try congruence;
    try (intros [= <-]; left; reflexivity).
  - destruct f as [q | negative |]; cbn; try congruence.
    + intros [= <-]. right. split; [reflexivity | now exists negative].
    + intros [= <-]. left. reflexivity.
  - intros H. apply int_of_str_raises in H. subst. left. reflexivity.
Qed.

(** [get_opening_time] raises in two situations only. *)
Lemma get_opening_time_raises (file : file_state) (e : exc) :
  get_opening_time file = Raise e <->
  (e = OverflowError /\ opening_time_infinite file) \/
  (e = AttributeError /\ not_an_object file).
Proof.
  split.
  - destruct file as [| | | | v]; try discriminate.
    destruct v as [| b | n | f | s | l | d];
      try (intros [= <-]; right; split; [reflexivity |];
           eexists; split; [reflexivity | congruence]).
    rewrite get_opening_time_object. unfold dict_get.
    destruct (dict_lookup d "opening_time") as [v |] eqn:L; [| discriminate].
    destruct (py_int v) as [n | e'] eqn:P; [discriminate |].
    destruct (py_int_raises _ _ P) as [C | [-> [negative ->]]].
    + rewrite C. discriminate.
    + intros [= <-]. left. split; [reflexivity |]. now exists d, negative.
  - intros [[-> (d & negative & -> & L)] | [-> (v & -> & H)]].
    + rewrite get_opening_time_object. unfold dict_get. rewrite L. reflexivity.
    + rewrite get_opening_time_no_object; [reflexivity |].
      intros d [= ->]. now apply (H d).
Qed.

(** [get_opening_time] returns a number of seconds within 1..60 in every
    state of the settings file but two, in which it raises: the stored
    opening time is an infinite float (OverflowError), or the file holds
    JSON that is not an object (AttributeError). *)
Theorem get_opening_time_failures (file : file_state) :
  (forall e, get_opening_time file = Raise e <->
     (e = OverflowError /\ opening_time_infinite file) \/
     (e = AttributeError /\ not_an_object file)) /\
  ((exists v, get_opening_time file = Ok v /\ 1 <= v <= 60) <->
     ~ opening_time_infinite file /\ ~ not_an_object file).
Proof.
  split; [intros e; apply get_opening_time_raises |].
  split.
  - intros (v & Hv & _). split; intros H.
    + assert (R : get_opening_time file = Raise OverflowError)
        by (apply get_opening_time_raises; left; split; [reflexivity | exact H]).
      congruence.
    + assert (R : get_opening_time file = Raise AttributeError)
        by (apply get_opening_time_raises; right; split; [reflexivity | exact H]).
      congruence.
  - intros [H1 H2]. destruct (get_opening_time file) as [v | e] eqn:G.
    + exists v. split; [reflexivity |]. exact (get_opening_time_in_range _ _ G).
    + apply get_opening_time_raises in G. destruct G as [[_ G] | [_ G]]; tauto.
Qed.

End OpeningTimeFailures.

(* ================================================================== *)
(** * 21. Properties of one tick of the queue task *)
(* ================================================================== *)

Section QueueTaskBatch.

Variable w : world.

Lemma activate_relay_raises (hw : bool) (file : file_state) (env : pigpio_env)
    (level : Z) (e : exc) :
  returned (activate_relay hw None file env level) = Raise e ->
  get_opening_time file = Raise e.
Proof.
  unfold activate_relay. destruct hw; cbn [negb]; [| discriminate].
  cbn [activation_time]. destruct (get_opening_time file) as [t | e']; [| cbn; congruence].
  destruct (relay_try env t level) as [[level1 done1] [e1 |]].
  - destruct (relay_handler env e1 level1). discriminate.
  - discriminate.
Qed.

Lemma decide_queue (uid : string) (st : state) :
  queue (fst (decide w uid st)) = queue st.
Proof.
  unfold decide.
  destruct (db w uid) as [k | | e]; [| reflexivity | reflexivity].
  destruct (is_active k); [| reflexivity].
  destruct (check_schedule k (now w)); [| reflexivity].
  cbn. destruct (returned _); reflexivity.
Qed.

Lemma decide_access_log (uid : string) (st : state) :
  exists evs,
    access_log (fst (decide w uid st)) = access_log st ++ evs /\
    (length evs <= 1)%nat /\
    (lookup_answers w uid -> length evs = 1%nat) /\
    (forall ev, In ev evs ->
       uid_attempted ev = uid /\ granted ev = grants w uid).
Proof.
  unfold decide, grants, lookup_answers.
  destruct (db w uid) as [k | | e].
  - destruct (is_active k); [destruct (check_schedule k (now w)) |].
    + exists [mkAccess uid (Some (id k)) true ReasonGranted].
      cbn. destruct (returned _); cbn.
      all: split; [reflexivity |]; split; [apply le_n |];
        split; [reflexivity |]; intros ev [<- | []]; split; reflexivity.
    + exists [mkAccess uid (Some (id k)) false ReasonSchedule].
      cbn. split; [reflexivity |]; split; [apply le_n |];
        split; [reflexivity |]; intros ev [<- | []]; split; reflexivity.
    + exists [mkAccess uid (Some (id k)) false ReasonInactive].
      cbn. split; [reflexivity |]; split; [apply le_n |];
        split; [reflexivity |]; intros ev [<- | []]; split; reflexivity.
  - exists [mkAccess uid None false ReasonUnknown].
    cbn. split; [reflexivity |]; split; [apply le_n |];
      split; [reflexivity |]; intros ev [<- | []]; split; reflexivity.
  - exists []. cbn. rewrite app_nil_r.
    split; [reflexivity |]. split; [apply le_0_n |]. split.
    + intros H. now destruct (H e).
    + intros ev [].
Qed.

Lemma decide_denied (uid : string) (st : state) :
  grants w uid = false ->
  relay (fst (decide w uid st)) = relay st /\
  exists acts, history (fst (decide w uid st)) = history st ++ acts /\
               Forall is_log acts.
Proof.
  unfold decide, grants.
  destruct (db w uid) as [k | | e].
  - destruct (is_active k); [destruct (check_schedule k (now w)) |];
      cbn; try discriminate; intros _; (split; [reflexivity |]);
      eexists; rewrite <- app_assoc; (split; [reflexivity |]);
      repeat constructor.
  - intros _; cbn; (split; [reflexivity |]);
      eexists; rewrite <- app_assoc; (split; [reflexivity |]);
      repeat constructor.
  - intros _; cbn; (split; [reflexivity |]);
      eexists; (split; [reflexivity |]); repeat constructor.
Qed.

Lemma decide_failure (uid : string) (st : state) (e : exc) :
  snd (decide w uid st) = Some e ->
  db w uid = LookupRaises e \/ e = OverflowError \/ e = AttributeError.
Proof.
  unfold decide.
  destruct (db w uid) as [k | | e'].
  - destruct (is_active k); [| discriminate].
    destruct (check_schedule k (now w)); [| discriminate].
    cbn. destruct (returned _) as [r | e'] eqn:R; cbn; [discriminate |].
    intros [= <-]. right.
    apply activate_relay_raises in R.
    apply get_opening_time_raises in R. destruct R as [[-> _] | [-> _]]; auto.
  - discriminate.
  - cbn. intros [= <-]. left. reflexivity.
Qed.

End QueueTaskBatch.

Section QueueTaskLoop.

Variable w : world.

Lemma Forall_is_log_one (lvl : level) (msg : message) :
  Forall is_log [Log (lvl, msg)].
Proof. repeat constructor. Qed.

(** One pass of the loop body on a queue that holds [uid] first. *)
Lemma loop_step (b : nat) (st : state) (uid : string) (rest : list string) :
  items (queue st) = uid :: rest ->
  let taken := mkQueue (maxsize (queue st)) rest (unfinished_tasks (queue st)) in
  let st1 := fst (decide w uid (set_queue st taken)) in
  exists st2 go_on,
    process_loop w (S b) st = (if go_on : bool then process_loop w b st2 else st2) /\
    items (queue st2) = rest /\
    maxsize (queue st2) = maxsize (queue st) /\
    unfinished_tasks (queue st) - 1 <= unfinished_tasks (queue st2)
      <= unfinished_tasks (queue st) /\
    relay st2 = relay st1 /\
    access_log st2 = access_log st1 /\
    (exists logs, history st2 = history st1 ++ logs /\ Forall is_log logs) /\
    (lookup_answers w uid ->
       go_on = true /\
       (0 < unfinished_tasks (queue st) ->
        unfinished_tasks (queue st2) = unfinished_tasks (queue st) - 1)).
Proof.
  intros Hitems taken st1. subst st1 taken.
  set (taken := mkQueue (maxsize (queue st)) rest (unfinished_tasks (queue st))).
  cbn [process_loop].
  assert (E : empty (queue st) = false).
  { unfold empty, qsize. rewrite Hitems. cbn [length].
    destruct (Z.eqb_spec (Z.of_nat (S (length rest))) 0); [lia | reflexivity]. }
  rewrite E. unfold get_nowait. rewrite Hitems. fold taken.
  pose proof (decide_queue w uid (set_queue st taken)) as Q.
  pose proof (decide_failure w uid (set_queue st taken)) as F.
  destruct (decide w uid (set_queue st taken)) as [st1 failure].
  cbn [fst snd] in *. cbn [set_queue queue] in Q. subst taken.
  destruct failure as [e |].
  - (* the decision raised *)
    unfold on_exception.
    destruct (issubclass e QueueEmpty) eqn:I1.
    { exists st1, false. rewrite Q. cbn.
      repeat split; try lia.
      - exists []. rewrite app_nil_r. split; [reflexivity | constructor].
      - exfalso. destruct (F e eq_refl) as [L | [-> | ->]];
          [exact (H e L) | discriminate | discriminate].
      - exfalso. destruct (F e eq_refl) as [L | [-> | ->]];
          [exact (H e L) | discriminate | discriminate]. }
    destruct (issubclass e OperationalError) eqn:I2.
    { exists (add_log st1 ERROR (MsgDbOperational uid)), false. cbn. rewrite Q. cbn.
      repeat split; try lia.
      - eexists. split; [reflexivity | apply Forall_is_log_one].
      - exfalso. destruct (F e eq_refl) as [L | [-> | ->]];
          [exact (H e L) | discriminate | discriminate].
      - exfalso. destruct (F e eq_refl) as [L | [-> | ->]];
          [exact (H e L) | discriminate | discriminate]. }
    cbn [add_log queue]. rewrite Q. unfold task_done. cbn [unfinished_tasks maxsize items].
    destruct (Z.ltb_spec (unfinished_tasks (queue st) - 1) 0) as [U | U].
    + exists (add_log st1 ERROR (MsgProcessError uid e)), true. cbn. rewrite Q. cbn.
      repeat split; try lia.
      eexists. split; [reflexivity | apply Forall_is_log_one].
    + exists (set_queue (add_log st1 ERROR (MsgProcessError uid e))
                (mkQueue (maxsize (queue st)) rest (unfinished_tasks (queue st) - 1))),
             true.
      cbn. repeat split; try lia.
      eexists. split; [reflexivity | apply Forall_is_log_one].
  - (* the decision returned *)
    rewrite Q. unfold task_done. cbn [unfinished_tasks maxsize items].
    destruct (Z.ltb_spec (unfinished_tasks (queue st) - 1) 0) as [U | U].
    + unfold on_exception. cbn [issubclass]. cbn [add_log queue]. rewrite Q.
      unfold task_done. cbn [unfinished_tasks maxsize items].
      destruct (Z.ltb_spec (unfinished_tasks (queue st) - 1) 0) as [U' | U']; [| lia].
      exists (add_log st1 ERROR (MsgProcessError uid ValueError)), true.
      cbn. rewrite Q. cbn. repeat split; try lia.
      eexists. split; [reflexivity | apply Forall_is_log_one].
    + exists (set_queue st1
                (mkQueue (maxsize (queue st)) rest (unfinished_tasks (queue st) - 1))),
             true.
      cbn. repeat split; try lia.
      exists []. rewrite app_nil_r. split; [reflexivity | constructor].
Qed.

End QueueTaskLoop.

Section QueueTaskRuns.

Variable w : world.

Lemma decide_history (uid : string) (st : state) :
  exists acts, history (fst (decide w uid st)) = history st ++ acts.
Proof.
  unfold decide.
  destruct (db w uid) as [k | | e].
  - destruct (is_active k); [destruct (check_schedule k (now w)) |]; cbn.
    + destruct (returned _); cbn; eexists; rewrite <- !app_assoc; reflexivity.
    + eexists; rewrite <- !app_assoc; reflexivity.
    + eexists; rewrite <- !app_assoc; reflexivity.
  - cbn. eexists; rewrite <- !app_assoc; reflexivity.
  - cbn. eexists; reflexivity.
Qed.

Lemma loop_empty (b : nat) (st : state) :
  items (queue st) = [] -> process_loop w b st = st.
Proof.
  intros H. destruct b; [reflexivity |].
  cbn [process_loop]. unfold empty, qsize. rewrite H. reflexivity.
Qed.

(** What every run of the loop keeps to. *)
Lemma loop_front (b : nat) (st : state) :
  exists n,
    (n <= b)%nat /\
    items (queue (process_loop w b st)) = skipn n (items (queue st)) /\
    maxsize (queue (process_loop w b st)) = maxsize (queue st) /\
    unfinished_tasks (queue st) - Z.of_nat n
      <= unfinished_tasks (queue (process_loop w b st))
      <= unfinished_tasks (queue st) /\
    (exists evs,
       access_log (process_loop w b st) = access_log st ++ evs /\
       (length evs <= n)%nat /\
       forall ev, In ev evs ->
         In (uid_attempted ev) (firstn n (items (queue st))) /\
         granted ev = grants w (uid_attempted ev)) /\
    (exists acts, history (process_loop w b st) = history st ++ acts).
Proof.
  revert st. induction b as [| b IH]; intros st.
  { exists 0%nat. cbn. repeat split; try lia.
    - exists []. rewrite app_nil_r. split; [reflexivity |].
      split; [apply le_n |]. intros ev [].
    - exists []. now rewrite app_nil_r. }
  destruct (items (queue st)) as [| uid rest] eqn:Hitems.
  { rewrite loop_empty by exact Hitems.
    exists 0%nat. cbn. rewrite Hitems. repeat split; try lia.
    - exists []. rewrite app_nil_r. split; [reflexivity |].
      split; [apply le_n |]. intros ev [].
    - exists []. now rewrite app_nil_r. }
  destruct (loop_step w b st uid rest Hitems)
    as (st2 & go_on & -> & I2 & M2 & U2 & _ & A2 & (logs & H2 & _) & _).
  set (taken := mkQueue (maxsize (queue st)) rest (unfinished_tasks (queue st))) in *.
  destruct (decide_access_log w uid (set_queue st taken)) as (evs & A1 & L1 & _ & G1).
  destruct (decide_history uid (set_queue st taken)) as (acts & H1).
  cbn [set_queue access_log history] in A1, H1.
  destruct go_on.
  - destruct (IH st2) as (n & Hn & I & M & U & (evs' & A & L & G) & (acts' & H)).
    exists (S n). cbn [skipn firstn].
    split; [lia |]. split; [now rewrite I, I2 |]. split; [congruence |].
    split; [lia |]. split.
    + exists (evs ++ evs'). split; [now rewrite A, A2, A1, app_assoc |].
      split; [rewrite length_app; lia |].
      intros ev Hev. apply in_app_or in Hev. destruct Hev as [Hev | Hev].
      * destruct (G1 ev Hev) as [Hu Hg]. split; [left; now symmetry |].
        now rewrite Hu.
      * destruct (G ev Hev) as [Hu Hg]. split; [| exact Hg].
        right. now rewrite <- I2.
    + exists (acts ++ logs ++ acts'). now rewrite H, H2, H1, !app_assoc.
  - exists 1%nat. cbn [skipn firstn].
    split; [lia |]. split; [exact I2 |]. split; [exact M2 |].
    split; [lia |]. split.
    + exists evs. split; [now rewrite A2 |]. split; [exact L1 |].
      intros ev Hev. destruct (G1 ev Hev) as [Hu Hg].
      split; [left; now symmetry | now rewrite Hu].
    + exists (acts ++ logs). now rewrite H2, H1, app_assoc.
Qed.

End QueueTaskRuns.

Section QueueTaskGuarantees.

Variable w : world.

Lemma loop_denied (b : nat) (st : state) :
  (forall uid, In uid (firstn b (items (queue st))) -> grants w uid = false) ->
  relay (process_loop w b st) = relay st /\
  exists acts, history (process_loop w b st) = history st ++ acts /\
               Forall is_log acts.
Proof.
  revert st. induction b as [| b IH]; intros st D.
  { split; [reflexivity |]. exists []. rewrite app_nil_r. now split. }
  destruct (items (queue st)) as [| uid rest] eqn:Hitems.
  { rewrite loop_empty by exact Hitems.
    split; [reflexivity |]. exists []. rewrite app_nil_r. now split. }
  destruct (loop_step w b st uid rest Hitems)
    as (st2 & go_on & -> & I2 & _ & _ & R2 & _ & (logs & H2 & F2) & _).
  set (taken := mkQueue (maxsize (queue st)) rest (unfinished_tasks (queue st))) in *.
  destruct (decide_denied w uid (set_queue st taken)) as (R1 & acts & H1 & F1).
  { apply D. now left. }
  cbn [set_queue relay history] in R1, H1.
  assert (S2 : relay st2 = relay st /\
               history st2 = history st ++ (acts ++ logs) /\
               Forall is_log (acts ++ logs)).
  { split; [congruence |]. split; [now rewrite H2, H1, app_assoc |].
    apply Forall_app. now split. }
  destruct S2 as (R & H & F).
  destruct go_on.
  - destruct (IH st2) as (R' & acts' & H' & F').
    { intros u Hu. apply D. right. now rewrite <- I2. }
    split; [congruence |].
    exists ((acts ++ logs) ++ acts'). split; [now rewrite H', H, <- !app_assoc |].
    apply Forall_app. now split.
  - split; [exact R |]. exists (acts ++ logs). now split.
Qed.

Lemma loop_answered (b : nat) (st : state) :
  (forall uid, In uid (firstn b (items (queue st))) -> lookup_answers w uid) ->
  let taken := firstn b (items (queue st)) in
  items (queue (process_loop w b st)) = skipn b (items (queue st)) /\
  (exists evs,
     access_log (process_loop w b st) = access_log st ++ evs /\
     map uid_attempted evs = taken /\
     forall ev, In ev evs -> granted ev = grants w (uid_attempted ev)) /\
  (Z.of_nat (length taken) <= unfinished_tasks (queue st) ->
   unfinished_tasks (queue (process_loop w b st)) =
     unfinished_tasks (queue st) - Z.of_nat (length taken)).
Proof.
  cbv zeta. revert st. induction b as [| b IH]; intros st D.
  { cbn. split; [reflexivity |]. split; [| lia].
    exists []. rewrite app_nil_r. split; [reflexivity |].
    split; [reflexivity |]. intros ev []. }
  destruct (items (queue st)) as [| uid rest] eqn:Hitems.
  { rewrite loop_empty by exact Hitems. rewrite Hitems. cbn.
    split; [reflexivity |]. split; [| lia].
    exists []. rewrite app_nil_r. split; [reflexivity |].
    split; [reflexivity |]. intros ev []. }
  destruct (loop_step w b st uid rest Hitems)
    as (st2 & go_on & -> & I2 & _ & _ & _ & A2 & _ & G2).
  set (q := mkQueue (maxsize (queue st)) rest (unfinished_tasks (queue st))) in *.
  destruct (decide_access_log w uid (set_queue st q)) as (evs & A1 & _ & L1 & G1).
  cbn [set_queue access_log] in A1.
  assert (Huid : lookup_answers w uid) by (apply D; now left).
  destruct (G2 Huid) as [-> U2]. specialize (L1 Huid).
  destruct evs as [| ev0 [| ? ?]]; try discriminate L1.
  destruct (G1 ev0 (or_introl eq_refl)) as [Hu0 Hg0].
  destruct (IH st2) as (I & (evs' & A & Mp & G) & U).
  { intros u Hu. apply D. right. now rewrite <- I2. }
  rewrite I2 in I, Mp, U.
  cbn [firstn skipn length].
  split; [exact I |]. split.
  - exists (ev0 :: evs'). split; [now rewrite A, A2, A1, <- app_assoc |].
    split; [cbn [map]; now rewrite Hu0, Mp |].
    intros ev [<- | Hev]; [now rewrite Hu0 | now apply G].
  - intros Hlen. rewrite U; rewrite U2; lia.
Qed.

End QueueTaskGuarantees.

Section QueueTaskTick.

(** One tick takes credentials from the front of the queue only, at most
    ten of them: the queue afterwards is the queue before without its first
    [n] items, nothing is added or reordered, [task_done] has been called
    at most once per item taken, the access log and the history only grow,
    and every access event added is for one of the items taken and grants
    access exactly when its keyfob is found, active and within its
    schedule.  When the models are not loaded the tick does nothing. *)
Theorem tick_takes_batch_from_front (w : world) (st : state) :
  let st' := process_wiegand_queue_task w st in
  (exists n,
     (n <= 10)%nat /\
     items (queue st') = skipn n (items (queue st)) /\
     maxsize (queue st') = maxsize (queue st) /\
     unfinished_tasks (queue st) - Z.of_nat n
       <= unfinished_tasks (queue st') <= unfinished_tasks (queue st) /\
     (exists evs,
        access_log st' = access_log st ++ evs /\
        (length evs <= n)%nat /\
        forall ev, In ev evs ->
          In (uid_attempted ev) (firstn n (items (queue st))) /\
          granted ev = grants w (uid_attempted ev)) /\
     (exists acts, history st' = history st ++ acts)) /\
  (MODELS_IMPORTED_SUCCESSFULLY w = false -> st' = st).
Proof.
  cbv zeta. unfold process_wiegand_queue_task.
  destruct (MODELS_IMPORTED_SUCCESSFULLY w); cbn [negb].
  - split; [| discriminate]. exact (loop_front w max_per_cycle st).
  - split; [| reflexivity].
    exists 0%nat. cbn. repeat split; try lia.
    + exists []. rewrite app_nil_r. split; [reflexivity |].
      split; [apply le_n |]. intros ev [].
    + exists []. now rewrite app_nil_r.
Qed.

(** The relay is driven for granted credentials only: when none of the
    (at most ten) credentials a tick can take is granted, the tick leaves
    the relay at its level and adds nothing but log lines to the history. *)
Theorem denied_credentials_leave_relay (w : world) (st : state) :
  (forall uid, In uid (firstn 10 (items (queue st))) -> grants w uid = false) ->
  let st' := process_wiegand_queue_task w st in
  relay st' = relay st /\
  exists acts, history st' = history st ++ acts /\ Forall is_log acts.
Proof.
  intros D. cbv zeta. unfold process_wiegand_queue_task.
  destruct (MODELS_IMPORTED_SUCCESSFULLY w); cbn [negb].
  - exact (loop_denied w max_per_cycle st D).
  - split; [reflexivity |]. exists []. rewrite app_nil_r. now split.
Qed.

Lemma denied_credentials_leave_relay_witness :
  let st' := process_wiegand_queue_task (world_with db_empty) two_queued in
  relay st' = relay two_queued /\
  exists acts, history st' = history two_queued ++ acts /\ Forall is_log acts.
Proof.
  apply (denied_credentials_leave_relay (world_with db_empty) two_queued).
  intros uid _. reflexivity.
Defined.

(** With the models loaded, a tick whose lookups all answer processes the
    first ten credentials of the queue (all of them when fewer are queued),
    in order: they are removed from the queue, exactly one access event is
    recorded for each, in the order of arrival, granting access exactly
    when the keyfob is found, active and within its schedule, and
    [task_done] is accounted once for each, also when opening the door
    raised. *)
Theorem answered_credentials_processed_in_order (w : world) (st : state) :
  MODELS_IMPORTED_SUCCESSFULLY w = true ->
  (forall uid, In uid (firstn 10 (items (queue st))) -> lookup_answers w uid) ->
  let st' := process_wiegand_queue_task w st in
  let taken := firstn 10 (items (queue st)) in
  items (queue st') = skipn 10 (items (queue st)) /\
  (exists evs,
     access_log st' = access_log st ++ evs /\
     map uid_attempted evs = taken /\
     forall ev, In ev evs -> granted ev = grants w (uid_attempted ev)) /\
  (Z.of_nat (length taken) <= unfinished_tasks (queue st) ->
   unfinished_tasks (queue st') =
     unfinished_tasks (queue st) - Z.of_nat (length taken)).
Proof.
  intros M A. cbv zeta. unfold process_wiegand_queue_task. rewrite M. cbn [negb].
  exact (loop_answered w max_per_cycle st A).
Qed.

Lemma answered_credentials_processed_in_order_witness :
  let st' := process_wiegand_queue_task (world_with db_empty) two_queued in
  let taken := firstn 10 (items (queue two_queued)) in
  items (queue st') = skipn 10 (items (queue two_queued)) /\
  (exists evs,
     access_log st' = access_log two_queued ++ evs /\
     map uid_attempted evs = taken /\
     forall ev, In ev evs ->
       granted ev = grants (world_with db_empty) (uid_attempted ev)) /\
  (Z.of_nat (length taken) <= unfinished_tasks (queue two_queued) ->
   unfinished_tasks (queue st') =
     unfinished_tasks (queue two_queued) - Z.of_nat (length taken)).
Proof.
  apply (answered_credentials_processed_in_order (world_with db_empty) two_queued).
  - reflexivity.
  - intros uid _ e. discriminate.
Defined.

(** A granted credential opens the door and locks it again: with the
    hardware available, the daemon answering and an opening time [t] read
    from the settings, a tick on a queue that holds one granted UID records
    the granted access first, then unlocks the relay, holds it for [t]
    seconds (1 to 60), locks it, and leaves the relay locked and the queue
    empty. *)
Theorem granted_credential_opens_door (w : world) (st : state) (uid : string)
    (t : Z) :
  MODELS_IMPORTED_SUCCESSFULLY w = true ->
  HARDWARE_AVAILABLE w = true ->
  daemon_healthy (pigpio w) ->
  get_opening_time (settings_file w) = Ok t ->
  items (queue st) = [uid] ->
  grants w uid = true ->
  let st' := process_wiegand_queue_task w st in
  1 <= t <= 60 /\
  relay st' = LOCKED /\
  items (queue st') = [] /\
  (exists keyfob,
     db w uid = Found keyfob /\
     access_log st' =
       access_log st ++ [mkAccess uid (Some (id keyfob)) true ReasonGranted]) /\
  (exists logs,
     history st' =
       history st ++
       [Log (INFO, MsgProcessing uid); Log (INFO, MsgGranted uid);
        Log (INFO, MsgRelayActivating t); Write RELAY_PIN UNLOCKED true;
        Sleep t; Write RELAY_PIN LOCKED true; Log (INFO, MsgRelayDeactivated)] ++
       relay_finally (pigpio w) ++ logs /\
     Forall is_log logs).
Proof.
  intros M HW (P1 & P2 & P3 & P4) T Hitems G. cbv zeta.
  pose proof (get_opening_time_in_range _ _ T) as Ht.
  split; [exact Ht |].
  unfold process_wiegand_queue_task. rewrite M. cbn [negb].
  change max_per_cycle with (S 9).
  destruct (loop_step w 9 st uid [] Hitems)
    as (st2 & go_on & -> & I2 & _ & _ & R2 & A2 & (logs & H2 & F2) & _).
  assert (L : (if go_on then process_loop w 9 st2 else st2) = st2)
    by (destruct go_on; [apply loop_empty; exact I2 | reflexivity]).
  rewrite L. clear L.
  revert R2 A2 H2. unfold decide. unfold grants in G.
  destruct (db w uid) as [k | | e]; try discriminate G.
  apply andb_prop in G. destruct G as [G1 G2]. rewrite G1, G2.
  unfold activate_relay. rewrite HW. cbn [negb activation_time]. rewrite T.
  unfold relay_try. rewrite P1, P2, P3, P4. cbn [negb].
  destruct (Z.ltb_spec t 0) as [N | _]; [lia |].
  cbn. intros R2 A2 H2.
  split; [exact R2 |]. split; [exact I2 |]. split.
  - exists k. split; [reflexivity | exact A2].
  - exists logs. split; [| exact F2].
    rewrite H2. rewrite <- !app_assoc. reflexivity.
Qed.

Lemma granted_credential_opens_door_witness :
  let w := world_with db_open in
  let st := mkState (mkQueue 0 ["111"] 1) LOCKED [] [] in
  let st' := process_wiegand_queue_task w st in
  1 <= 5 <= 60 /\
  relay st' = LOCKED /\
  items (queue st') = [] /\
  (exists keyfob,
     db w "111" = Found keyfob /\
     access_log st' =
       access_log st ++ [mkAccess "111" (Some (id keyfob)) true ReasonGranted]) /\
  (exists logs,
     history st' =
       history st ++
       [Log (INFO, MsgProcessing "111"); Log (INFO, MsgGranted "111");
        Log (INFO, MsgRelayActivating 5); Write RELAY_PIN UNLOCKED true;
        Sleep 5; Write RELAY_PIN LOCKED true; Log (INFO, MsgRelayDeactivated)] ++
       relay_finally (pigpio w) ++ logs /\
     Forall is_log logs).
Proof.
  apply (granted_credential_opens_door (world_with db_open)
           (mkState (mkQueue 0 ["111"] 1) LOCKED [] []) "111" 5).
  - reflexivity.
  - reflexivity.
  - repeat split.
  - reflexivity.
  - reflexivity.
  - reflexivity.
Defined.

End QueueTaskTick.

(* ================================================================== *)
(** * 22. Further properties of the schedule check *)
(* ================================================================== *)

Section ScheduleWindows.

Lemma tuple_compare_antisym (a b : list Z) :
  tuple_compare b a = CompOpp (tuple_compare a b).
Proof.
  revert b. induction a as [| x a IH]; intros [| y b]; cbn; try reflexivity.
  rewrite (Z.compare_antisym x y).
  destruct (x ?= y); cbn; [apply IH | reflexivity | reflexivity].
Qed.

Lemma tuple_compare_refl (a : list Z) : tuple_compare a a = Eq.
Proof.
  induction a as [| x a IH]; cbn; [reflexivity |].
  now rewrite Z.compare_refl.
Qed.

Lemma time_lt_not_le (a b : time) : time_lt a b = negb (time_le b a).
Proof.
  unfold time_lt, time_le.
  rewrite (tuple_compare_antisym (time_tuple a) (time_tuple b)).
  destruct (tuple_compare (time_tuple a) (time_tuple b)); reflexivity.
Qed.

(** A window whose start and end are the same time is empty:
    [check_schedule] with the schedule enabled then refuses at every time
    of every day (it never means the whole day). *)
Theorem empty_window_never_grants (keyfob : Keyfob) (now : local_now) (t : time) :
  activation_schedule_enabled keyfob = true ->
  activation_start_time keyfob = Some t ->
  activation_end_time keyfob = Some t ->
  check_schedule keyfob now = false.
Proof.
  intros He Hs Hend. rewrite (check_schedule_enabled keyfob now He), Hs, Hend.
  destruct (str_in _ _); [| reflexivity].
  unfold time_le at 1. rewrite tuple_compare_refl.
  rewrite time_lt_not_le. apply andb_negb_r.
Qed.

Lemma empty_window_never_grants_witness :
  check_schedule (with_window night_keyfob (Some eight) (Some eight)) noon_monday
    = false.
Proof.
  apply (empty_window_never_grants
           (with_window night_keyfob (Some eight) (Some eight)) noon_monday eight);
    reflexivity.
Defined.

(** Swapping start and end gives the complementary window: for two
    different times [a] and [b] and a record whose schedule is enabled, at
    every moment exactly one of the windows a..b and b..a grants on an
    allowed day (and none on another day): never both, and one of them
    exactly when the record without a window grants. *)
Theorem swapped_window_is_complement (keyfob : Keyfob) (now : local_now)
    (a b : time) :
  activation_schedule_enabled keyfob = true ->
  tuple_compare (time_tuple a) (time_tuple b) <> Eq ->
  let day := check_schedule (with_window keyfob None None) now in
  let forth := check_schedule (with_window keyfob (Some a) (Some b)) now in
  let back := check_schedule (with_window keyfob (Some b) (Some a)) now in
  forth && back = false /\ forth || back = day.
Proof.
  intros He Hab. cbv zeta.
  rewrite !check_schedule_enabled by exact He.
  unfold allowed_days, with_window.
  cbn [activation_days activation_start_time activation_end_time].
  destruct (str_in _ _); [| split; reflexivity].
  unfold time_ge. rewrite !time_lt_not_le.
  assert (Hba : time_le b a = negb (time_le a b)).
  { unfold time_le.
    rewrite (tuple_compare_antisym (time_tuple a) (time_tuple b)).
    destruct (tuple_compare (time_tuple a) (time_tuple b));
      [now destruct Hab | reflexivity | reflexivity]. }
  rewrite Hba.
  destruct (time_le a b), (time_le a (now_time now)), (time_le b (now_time now));
    split; reflexivity.
Qed.

Lemma swapped_window_is_complement_witness :
  let day := check_schedule (with_window night_keyfob None None) noon_monday in
  let forth :=
    check_schedule (with_window night_keyfob (Some eight) (Some eighteen))
                   noon_monday in
  let back :=
    check_schedule (with_window night_keyfob (Some eighteen) (Some eight))
                   noon_monday in
  forth && back = false /\ forth || back = day.
Proof.
  apply (swapped_window_is_complement night_keyfob noon_monday eight eighteen).
  - reflexivity.
  - discriminate.
Defined.

End ScheduleWindows.

Section StoredDays.

Lemma lower_char_comma (c : ascii) :
  (lower_char c =? ",")%char = (c =? ",")%char.
Proof. destruct c as [[] [] [] [] [] [] [] []]; reflexivity. Qed.

Lemma contains_lower (s : string) : contains "," (lower s) = contains "," s.
Proof.
  induction s as [| c s IH]; cbn; [reflexivity |].
  now rewrite lower_char_comma, IH.
Qed.

Lemma lower_app (s t : string) : lower (s ++ t) = (lower s ++ lower t)%string.
Proof.
  induction s as [| c s IH]; cbn; [reflexivity |]. now rewrite IH.
Qed.

Lemma lower_join_sep (l : list string) :
  lower (join_sep "," l) = join_sep "," (map lower l).
Proof.
  induction l as [| x [| y l] IH]; [reflexivity | reflexivity |].
  change (join_sep "," (x :: y :: l)) with (x ++ "," ++ join_sep "," (y :: l))%string.
  change (map lower (x :: y :: l)) with (lower x :: lower y :: map lower l).
  change (join_sep "," (lower x :: lower y :: map lower l))
    with (lower x ++ "," ++ join_sep "," (map lower (y :: l)))%string.
  rewrite lower_app. cbn [append lower]. rewrite <- IH. reflexivity.
Qed.

Lemma split_no_sep (sep : ascii) (s : string) :
  contains sep s = false -> split sep s = [s].
Proof.
  induction s as [| c s IH]; cbn; [reflexivity |].
  destruct (c =? sep)%char; [discriminate |]. cbn.
  intros H. now rewrite IH.
Qed.

Lemma split_app_sep (sep : ascii) (s t : string) :
  contains sep s = false ->
  split sep (s ++ String sep t)%string = s :: split sep t.
Proof.
  induction s as [| c s IH]; cbn.
  - intros _. now rewrite Ascii.eqb_refl.
  - destruct (c =? sep)%char; [discriminate |]. cbn.
    intros H. now rewrite IH.
Qed.

Lemma split_join_sep (l : list string) :
  l <> [] -> Forall (fun s => contains "," s = false) l ->
  split "," (join_sep "," l) = l.
Proof.
  induction l as [| x [| y l] IH]; intros Hne Hall; [now destruct Hne | |].
  - cbn. apply split_no_sep. now inversion Hall.
  - change (join_sep "," (x :: y :: l)) with (x ++ String "," (join_sep "," (y :: l)))%string.
    inversion Hall as [| ? ? Hx Hrest]; subst.
    rewrite split_app_sep by exact Hx.
    rewrite IH; [reflexivity | discriminate | exact Hrest].
Qed.

(** The day list written by [add_keyfob] and [edit_keyfob] is the one
    [check_schedule] reads back: for day names without a comma, the
    allowed-day set of the stored column is the list of the names in lower
    case, so a record with the schedule enabled is granted only on a day
    whose abbreviated name is among them (whatever their case), and on
    exactly those days when it has no time window.  An empty list (the
    column is NULL) grants on no day. *)
Theorem stored_days_are_read_back (days_list : list string) (keyfob : Keyfob)
    (now : local_now) :
  Forall (fun s => contains "," s = false) days_list ->
  activation_schedule_enabled keyfob = true ->
  activation_days keyfob = stored_days days_list ->
  let today := weekday_name (now_weekday now) in
  allowed_days keyfob = map lower days_list /\
  (check_schedule keyfob now = true -> In today (map lower days_list)) /\
  (activation_start_time keyfob = None \/ activation_end_time keyfob = None ->
   (check_schedule keyfob now = true <-> In today (map lower days_list))).
Proof.
  intros Hall He Hd. cbv zeta.
  assert (A : allowed_days keyfob = map lower days_list).
  { unfold allowed_days. rewrite Hd. destruct days_list as [| x l]; [reflexivity |].
    cbn [stored_days]. rewrite lower_join_sep.
    apply split_join_sep; [discriminate |].
    rewrite Forall_map. revert Hall. apply Forall_impl.
    intros s Hs. now rewrite contains_lower. }
  split; [exact A |].
  rewrite (check_schedule_enabled keyfob now He), A.
  split.
  - destruct (str_in _ _) eqn:E; [intros _; now apply str_in_spec | discriminate].
  - intros Hw. rewrite <- str_in_spec.
    destruct (str_in _ _); [| reflexivity].
    destruct Hw as [-> | Hw]; [reflexivity |].
    rewrite Hw. destruct (activation_start_time keyfob); reflexivity.
Qed.

Lemma stored_days_are_read_back_witness :
  let keyfob := mkKeyfob 1 "111" true true (stored_days ["Mon"; "WED"]) None None in
  let today := weekday_name (now_weekday noon_monday) in
  allowed_days keyfob = map lower ["Mon"; "WED"] /\
  (check_schedule keyfob noon_monday = true -> In today (map lower ["Mon"; "WED"])) /\
  (activation_start_time keyfob = None \/ activation_end_time keyfob = None ->
   (check_schedule keyfob noon_monday = true <-> In today (map lower ["Mon"; "WED"]))).
Proof.
  apply (stored_days_are_read_back ["Mon"; "WED"]
           (mkKeyfob 1 "111" true true (stored_days ["Mon"; "WED"]) None None)
           noon_monday).
  - repeat constructor.
  - reflexivity.
  - reflexivity.
Defined.

End StoredDays.

(* ================================================================== *)
(** * 23. Properties of the GPIO set-up and clean-up *)
(* ================================================================== *)

Section GpioSetup.

Lemma run_calls_done (raises : nat -> bool) (calls : list gpio_call) (i : nat) :
  exists rest, calls = fst (run_calls raises i calls) ++ rest /\
    (snd (run_calls raises i calls) = None ->
       rest = [] /\
       forall k, (k < length calls)%nat -> raises (i + k)%nat = false).
Proof.
  revert i. induction calls as [| c calls IH]; intros i; cbn.
  - exists []. split; [reflexivity |]. intros _. split; [reflexivity |].
    intros k Hk. inversion Hk.
  - destruct (raises i) eqn:R.
    + exists (c :: calls). split; [reflexivity | discriminate].
    + destruct (IH (S i)) as (rest & E & N).
      destruct (run_calls raises (S i) calls) as [done failure]. cbn in *.
      exists rest. split; [now rewrite <- E |].
      intros F. destruct (N F) as [-> A]. split; [reflexivity |].
      intros [| k] Hk; [now rewrite Nat.add_0_r |].
      rewrite Nat.add_succ_r. apply (A k). now apply Nat.succ_lt_mono.
Qed.

Lemma run_calls_all (raises : nat -> bool) (calls : list gpio_call) (i : nat) :
  (forall k, (k < length calls)%nat -> raises (i + k)%nat = false) ->
  run_calls raises i calls = (calls, None).
Proof.
  revert i. induction calls as [| c calls IH]; intros i A; cbn; [reflexivity |].
  rewrite <- (Nat.add_0_r i) at 1. rewrite (A 0%nat) by (cbn; apply Nat.lt_0_succ).
  rewrite IH; [reflexivity |].
  intros k Hk. rewrite Nat.add_succ_l, <- Nat.add_succ_r. apply A.
  cbn. now apply -> Nat.succ_lt_mono.
Qed.

End GpioSetup.

Section Gpio.

Lemma in_prefix {A} (x : A) (l l' rest : list A) :
  l' = l ++ rest -> In x l -> In x l'.
Proof. intros ->. intros H. apply in_or_app. now left. Qed.

Lemma setup_sequence_writes (pin lv : Z) :
  In (WriteLevel pin lv) setup_sequence -> pin = RELAY_PIN /\ lv = LOCKED.
Proof.
  cbn. intros H.
  repeat (destruct H as [H | H]; [try discriminate H |]); try contradiction.
  injection H as <- <-. split; reflexivity.
Qed.

Lemma cleanup_sequence_writes (pin lv : Z) :
  In (WriteLevel pin lv) cleanup_sequence -> pin = RELAY_PIN /\ lv = LOCKED.
Proof.
  cbn. intros H.
  repeat (destruct H as [H | H]; [try discriminate H |]); try contradiction.
  injection H as <- <-. split; reflexivity.
Qed.

Lemma gpio_finally_no_write (env : gpio_env) (pin lv : Z) :
  ~ In (WriteLevel pin lv) (gpio_finally env).
Proof.
  unfold gpio_finally. destruct (connected_finally env); cbn; [| tauto].
  intros [H | []]. discriminate.
Qed.

Lemma setup_gpio_agree (PIGPIO_AVAILABLE : bool) (env : gpio_env) :
  snd (fst (setup_gpio PIGPIO_AVAILABLE env)) = fst (fst (setup_gpio PIGPIO_AVAILABLE env)).
Proof.
  unfold setup_gpio.
  destruct PIGPIO_AVAILABLE, (connect_raises env), (connected env);
    cbn [negb]; try reflexivity.
  destruct (run_calls _ _ _) as [done [e |]]; reflexivity.
Qed.

(** [setup_gpio] returns the value it leaves in [HARDWARE_AVAILABLE]; that
    value is true exactly when pigpio is available, the daemon connects and
    none of the six configuration calls raises, and then the whole
    configuration was applied: the relay pin an output written to the
    locked level, the two data pins inputs with pull-ups.  Whatever
    happens, the calls that returned are a prefix of that configuration
    (followed by [stop()] when the handle is still connected), and the only
    level ever written is the locked level on the relay pin. *)
Theorem setup_gpio_outcome (PIGPIO_AVAILABLE : bool) (env : gpio_env) :
  let '(returned, available, calls) := setup_gpio PIGPIO_AVAILABLE env in
  available = returned /\
  (returned = true <->
     PIGPIO_AVAILABLE = true /\ connect_raises env = false /\
     connected env = true /\
     forall k, (k < 6)%nat -> call_raises env k = false) /\
  (returned = true -> calls = setup_sequence ++ gpio_finally env) /\
  (exists done rest,
     setup_sequence = done ++ rest /\
     (calls = done \/ calls = done ++ [StopHandle])) /\
  (forall pin lv, In (WriteLevel pin lv) calls -> pin = RELAY_PIN /\ lv = LOCKED).
Proof.
  assert (Fin : forall done,
            done ++ gpio_finally env = done \/
            done ++ gpio_finally env = done ++ [StopHandle]).
  { intros done. unfold gpio_finally.
    destruct (connected_finally env); [now right | left; apply app_nil_r]. }
  unfold setup_gpio.
  destruct PIGPIO_AVAILABLE; cbn [negb].
  2:{ split; [reflexivity |].
      split; [split; [discriminate | intros [H _]; discriminate] |].
      split; [discriminate |]. split; [| intros pin lv []].
      exists [], setup_sequence. split; [reflexivity | now left]. }
  destruct (connect_raises env).
  { split; [reflexivity |].
    split; [split; [discriminate | intros (_ & H & _); discriminate] |].
    split; [discriminate |]. split; [| intros pin lv []].
    exists [], setup_sequence. split; [reflexivity | now left]. }
  destruct (connected env); cbn [negb].
  2:{ split; [reflexivity |].
      split; [split; [discriminate | intros (_ & _ & H & _); discriminate] |].
      split; [discriminate |]. split.
      - exists [], setup_sequence. split; [reflexivity | exact (Fin [])].
      - intros pin lv H. now apply gpio_finally_no_write in H. }
  destruct (run_calls_done (call_raises env) setup_sequence 0) as (rest & E & N).
  destruct (run_calls (call_raises env) 0 setup_sequence) as [done failure] eqn:R.
  cbn [fst snd] in E, N.
  assert (W : forall pin lv, In (WriteLevel pin lv) (done ++ gpio_finally env) ->
                pin = RELAY_PIN /\ lv = LOCKED).
  { intros pin lv H. apply in_app_or in H. destruct H as [H | H].
    - apply setup_sequence_writes. exact (in_prefix _ _ _ _ E H).
    - now apply gpio_finally_no_write in H. }
  destruct failure as [e |].
  - split; [reflexivity |]. split.
    + split; [discriminate |]. intros (_ & _ & _ & A).
      rewrite run_calls_all in R by (intros k Hk; apply A; exact Hk).
      discriminate R.
    + split; [discriminate |]. split; [| exact W].
      exists done, rest. split; [exact E | apply Fin].
  - destruct (N eq_refl) as [-> A]. rewrite app_nil_r in E. subst done.
    split; [reflexivity |]. split.
    + split; [| reflexivity]. intros _. repeat split. exact A.
    + split; [reflexivity |]. split; [| exact W].
      exists setup_sequence, []. split; [now rewrite app_nil_r | apply Fin].
Qed.

(** After a set-up that failed the door functions refuse to act: with the
    [HARDWARE_AVAILABLE] it left, [activate_relay], [lock_door] and
    [unlock_door_permanently] all return failure and leave the relay as it
    is, without a call to the daemon. *)
Theorem failed_setup_disables_door (PIGPIO_AVAILABLE : bool) (env : gpio_env)
    (duration : option Z) (file : file_state) (daemon : pigpio_env) (level : Z) :
  fst (fst (setup_gpio PIGPIO_AVAILABLE env)) = false ->
  let hw := snd (fst (setup_gpio PIGPIO_AVAILABLE env)) in
  let opened := activate_relay hw duration file daemon level in
  let locked := lock_door hw daemon level in
  let unlocked := unlock_door_permanently hw daemon level in
  (returned opened = Ok (false, RelayNoHardware) /\ relay_level opened = level /\
   trace opened = [Log (WARNING, MsgHwUnavailable)]) /\
  (door_returned locked = (false, DoorNoHardware) /\ door_level locked = level /\
   door_steps locked = []) /\
  (door_returned unlocked = (false, DoorNoHardware) /\
   door_level unlocked = level /\ door_steps unlocked = []).
Proof.
  intros F. cbv zeta.
  assert (H : snd (fst (setup_gpio PIGPIO_AVAILABLE env)) = false).
  { pose proof (setup_gpio_agree PIGPIO_AVAILABLE env) as A. congruence. }
  rewrite H. repeat split.
Qed.

Lemma failed_setup_disables_door_witness :
  let hw := snd (fst (setup_gpio true gpio_down)) in
  let opened := activate_relay hw None FileMissing daemon_up LOCKED in
  let locked := lock_door hw daemon_up LOCKED in
  let unlocked := unlock_door_permanently hw daemon_up LOCKED in
  (returned opened = Ok (false, RelayNoHardware) /\ relay_level opened = LOCKED /\
   trace opened = [Log (WARNING, MsgHwUnavailable)]) /\
  (door_returned locked = (false, DoorNoHardware) /\ door_level locked = LOCKED /\
   door_steps locked = []) /\
  (door_returned unlocked = (false, DoorNoHardware) /\
   door_level unlocked = LOCKED /\ door_steps unlocked = []).
Proof.
  apply (failed_setup_disables_door true gpio_down None FileMissing daemon_up LOCKED).
  reflexivity.
Defined.

(** [cleanup_gpio] does nothing unless pigpio and the hardware are both
    available.  The calls that returned are a prefix of its sequence
    (followed by [stop()] when the handle is still connected), the only
    level it ever writes is the locked level on the relay pin, and when the
    daemon connects and no call raises the whole sequence was made: the
    relay locked before its pin is handed back as an input, the pull-ups
    of the data pins switched off. *)
Theorem cleanup_gpio_calls (PIGPIO_AVAILABLE HARDWARE_AVAILABLE : bool)
    (env : gpio_env) :
  let calls := cleanup_gpio PIGPIO_AVAILABLE HARDWARE_AVAILABLE env in
  (PIGPIO_AVAILABLE && HARDWARE_AVAILABLE = false -> calls = []) /\
  (exists done rest,
     cleanup_sequence = done ++ rest /\
     (calls = done \/ calls = done ++ [StopHandle])) /\
  (forall pin lv, In (WriteLevel pin lv) calls -> pin = RELAY_PIN /\ lv = LOCKED) /\
  (PIGPIO_AVAILABLE = true -> HARDWARE_AVAILABLE = true ->
   connect_raises env = false -> connected env = true ->
   (forall k, (k < 7)%nat -> call_raises env k = false) ->
   calls = cleanup_sequence ++ gpio_finally env).
Proof.
  assert (Fin : forall done,
            done ++ gpio_finally env = done \/
            done ++ gpio_finally env = done ++ [StopHandle]).
  { intros done. unfold gpio_finally.
    destruct (connected_finally env); [now right | left; apply app_nil_r]. }
  cbv zeta. unfold cleanup_gpio.
  destruct PIGPIO_AVAILABLE, HARDWARE_AVAILABLE; cbn [negb orb andb];
    try (split; [reflexivity |]; split;
         [exists [], cleanup_sequence; split; [reflexivity | now left] |];
         split; [intros pin lv [] | discriminate]).
  destruct (connect_raises env).
  { split; [discriminate |]. split;
      [exists [], cleanup_sequence; split; [reflexivity | now left] |].
    split; [intros pin lv [] | discriminate]. }
  destruct (connected env); cbn [negb].
  2:{ split; [discriminate |]. split;
        [exists [], cleanup_sequence; split; [reflexivity | exact (Fin [])] |].
      split; [| discriminate].
      intros pin lv H. now apply gpio_finally_no_write in H. }
  destruct (run_calls_done (call_raises env) cleanup_sequence 0) as (rest & E & _).
  split; [discriminate |]. split; [| split].
  - exists (fst (run_calls (call_raises env) 0 cleanup_sequence)), rest.
    split; [exact E | apply Fin].
  - intros pin lv H. apply in_app_or in H. destruct H as [H | H].
    + apply cleanup_sequence_writes. exact (in_prefix _ _ _ _ E H).
    + now apply gpio_finally_no_write in H.
  - intros _ _ _ _ A.
    rewrite run_calls_all by (intros k Hk; apply A; exact Hk). reflexivity.
Qed.

End Gpio.
